(** * face-search: the album index of [main.py]

    A shallow embedding of [main.py]: the numpy/sqlite3 storage codec, the
    [AlbumIndex] and [Album] classes and [main], followed by the properties
    of synchronisation and of the face query.

    Conventions.
    - Python [bytes] are [list byte]; [str] is [string]; a Python [set] of
      strings is a [gset string].
    - A call that may raise returns a [result]; a raised exception ends the
      enclosing function with that exception, there is no [try] in the file.
    - The libraries the program calls ([filetype], [face_recognition],
      [numpy]) are the fields of the class [External]: the program never looks
      inside an image or an embedding, it only passes them on.
    - [logging] and [tqdm] write to stderr and are left out; [print] is kept
      as a list of output lines. *)

From stdpp Require Import base list gmap strings.

Set Default Proof Using "Type".

Abbreviation bytes := (list Byte.byte).

(** ** Exceptions *)

Inductive exn : Type :=
| Exception (msg : string)
| FileNotFoundError
| IsADirectoryError
| TypeError (msg : string)
| IndexError
| OSError
| UnidentifiedImageError.

Inductive result (A : Type) : Type :=
| Ok (a : A)
| Raise (e : exn).
Arguments Ok {A} a.
Arguments Raise {A} e.

Definition is_Ok {A} (r : result A) : bool :=
  match r with Ok _ => true | Raise _ => false end.

(** ** External libraries *)

Class External : Type := {
  (** a decoded picture, as [face_recognition.load_image_file] returns it *)
  image : Type;
  (** one face embedding, a [numpy.ndarray] *)
  encoding : Type;
  (** [filetype.is_image] on a regular file with these bytes *)
  is_image : bytes → bool;
  (** the decoding done by [face_recognition.load_image_file]; [None] when
      it raises on these bytes *)
  decode : bytes → option image;
  (** [face_recognition.face_encodings] *)
  face_encodings : image → list encoding;
  (** [face_recognition.compare_faces([known], candidate)[0]] *)
  compare_faces : encoding → encoding → bool;
  (** the bytes [numpy.save] writes for an array *)
  npy_dumps : encoding → bytes;
  (** the array [numpy.load] reads from a stream holding these bytes *)
  npy_loads : bytes → encoding
}.

(** ** [io.BytesIO] *)

Module BytesIO.
Record t : Type := { buf : bytes; pos : nat }.

Definition new (initial : bytes) : t := {| buf := initial; pos := 0 |}.

(** Writing overwrites from the position on and extends the buffer; a
    position past the end is first padded with zero bytes. *)
Definition write (data : bytes) (o : t) : t :=
  {| buf := take (pos o) (buf o) ++ replicate (pos o - length (buf o)) Byte.x00
            ++ data ++ drop (pos o + length data) (buf o);
     pos := pos o + length data |}.

Definition seek (n : nat) (o : t) : t := {| buf := buf o; pos := n |}.

(** [read()] returns everything from the position to the end. *)
Definition read (o : t) : bytes * t :=
  (drop (pos o) (buf o), {| buf := buf o; pos := pos o `max` length (buf o) |}).
End BytesIO.

(** ** The sqlite3 adapter and converter for [numpy.ndarray] *)

Section codec.
Context `{External}.

Definition numpy_save (out : BytesIO.t) (arr : encoding) : BytesIO.t :=
  BytesIO.write (npy_dumps arr) out.

Definition numpy_load (out : BytesIO.t) : encoding :=
  npy_loads (BytesIO.read out).1.

Definition adapt_numpy_array (arr : encoding) : bytes :=
  let out := BytesIO.new [] in
  let out := numpy_save out arr in
  let out := BytesIO.seek 0 out in
  (BytesIO.read out).1.

Definition convert_numpy_array (text : bytes) : encoding :=
  let out := BytesIO.new text in
  let out := BytesIO.seek 0 out in
  numpy_load out.
End codec.

(** ** The album directory *)

(** What a path names: a directory, a symbolic link whose target is
    missing, a node that is neither a file nor a directory (a socket, a
    device), or a regular file (possibly through a symbolic link). *)
Inductive node : Type :=
| Directory
| BrokenLink
| Special
| Regular (content : bytes).

(** The tables of [index.sqlite3], rows in rowid order.  [link] holds the
    [face_vector] column as the adapter wrote it. *)
Record database : Type := {
  files : list string;
  link : list (string * bytes)
}.

(** The album root: [entries] are the paths [rglob("*")] yields, relative to
    the root and in the order it yields them, except [index.sqlite3] itself,
    which is [index_file].  (The index is a regular file too, but an SQLite
    header is no image signature, so [Album.list_files] drops it.) *)
Record album_dir : Type := {
  entries : list (string * node);
  index_file : option database
}.

(** What the [album] argument names. *)
Inductive target : Type :=
| Missing
| NotADirectory
| AlbumDir (d : album_dir).

Definition lookup_path (ents : list (string * node)) (p : string) : option node :=
  (λ ie, ie.2.2) <$> list_find (λ e, e.1 = p) ents.

Section program.
Context `{External}.

(** [face_recognition.load_image_file] on what a path names. *)
Definition load_image_file (n : option node) : result image :=
  match n with
  | None => Raise FileNotFoundError
  | Some Directory => Raise IsADirectoryError
  | Some BrokenLink => Raise FileNotFoundError
  | Some Special => Raise OSError
  | Some (Regular content) =>
      match decode content with
      | Some img => Ok img
      | None => Raise UnidentifiedImageError
      end
  end.
End program.

(** A line written by [print]. *)
Inductive line : Type :=
| NoFaceFound                (* "No face was found in the input image" *)
| Found (n : nat)            (* "Found {n} image(s)" *)
| ImagePath (rel : string).  (* the album path joined with [rel] *)

(** ** class AlbumIndex

    The object's [index] attribute is [None] or a connection; the methods
    that use the connection are given its database, as [main] only calls
    them on a connected index. *)

Module AlbumIndex.
Section methods.
Context `{External}.

(** [__init__]: connects only when [index.sqlite3] exists. *)
Definition init (d : album_dir) : option database := index_file d.

Definition exists_ (index : option database) : bool :=
  match index with Some _ => true | None => false end.

Definition initialize (index : option database) : result database :=
  if exists_ index then Raise (Exception "index already exists")
  else Ok {| files := []; link := [] |}.

(** The rows are committed together at the end; the only call that can
    raise comes before the first [INSERT]. *)
Definition insert (album : list (string * node)) (filename : string)
    (db : database) : result database :=
  match load_image_file (lookup_path album filename) with
  | Raise e => Raise e
  | Ok img =>
      let encodings := face_encodings img in
      let db := {| files := files db ++ [filename]; link := link db |} in
      Ok (foldl (λ db encoding,
                   {| files := files db;
                      link := link db ++ [(filename, adapt_numpy_array encoding)] |})
                db encodings)
  end.

Definition list_files (db : database) : gset string :=
  list_to_set (files db).

(** [fetchall] on [link]; the [numpy_ndarray] column goes through the
    registered converter. *)
Definition list_links (db : database) : list (string * encoding) :=
  (λ row, (row.1, convert_numpy_array row.2)) <$> link db.

Definition find_face (db : database) (path : option node)
    : result (list string) * list line :=
  match load_image_file path with
  | Raise e => (Raise e, [])
  | Ok img =>
      let encodings := face_encodings img in
      if length encodings =? 0 then (Ok [], [NoFaceFound])
      else if 1 <? length encodings then
        (Raise (Exception "Support for multiple faces is input is unimplemented"), [])
      else
        match encodings !! 0 with
        | None => (Raise IndexError, [])
        | Some query =>
            (Ok (fst <$> filter (λ row, compare_faces row.2 query) (list_links db)), [])
        end
  end.
End methods.
End AlbumIndex.

(** ** class Album *)

Module Album.
Section methods.
Context `{External}.

Definition init (path : target) : result album_dir :=
  match path with
  | Missing => Raise FileNotFoundError
  | NotADirectory => Raise (TypeError "album needs to be a directory")
  | AlbumDir d => Ok d
  end.

Definition is_file (n : node) : bool :=
  match n with Regular _ => true | _ => false end.

(** [filetype.is_image] reads the head of the file; it is only reached
    for regular files. *)
Definition filetype_is_image (n : node) : bool :=
  match n with Regular content => is_image content | _ => false end.

Definition list_files (album : list (string * node)) : list string :=
  fst <$> filter (λ e, is_file e.2 && filetype_is_image e.2) album.
End methods.
End Album.

(** ** main *)

Record args : Type := {
  find_face : option string;
  delete_index : bool
}.

(** The file system as the run sees it: what [args.album] names, and what
    the paths that can be given to [--find-face] name. *)
Record world : Type := {
  album_root : target;
  elsewhere : list (string * node)
}.

Definition set_index (w : world) (d : album_dir) (index : option database) : world :=
  {| album_root := AlbumDir {| entries := entries d; index_file := index |};
     elsewhere := elsewhere w |}.

(** [index.index_path.unlink(missing_ok=...)] *)
Definition unlink (missing_ok : bool) (index : option database)
    : result (option database) :=
  match index with
  | Some _ => Ok None
  | None => if missing_ok then Ok None else Raise FileNotFoundError
  end.

Section main.
Context `{External}.

(** [for file in new_files: index.insert(file)] *)
Fixpoint insert_all (album : list (string * node)) (new_files : list string)
    (db : database) : result unit * database :=
  match new_files with
  | [] => (Ok (), db)
  | file :: rest =>
      match AlbumIndex.insert album file db with
      | Raise e => (Raise e, db)
      | Ok db' => insert_all album rest db'
      end
  end.

Definition new_files (album : list (string * node)) (db : database) : list string :=
  let indexed_files := AlbumIndex.list_files db in
  filter (λ file, file ∉ indexed_files) (Album.list_files album).

(** Lines 140-145 of [main]: the synchronisation of the index with the
    album. *)
Definition sync (album : list (string * node)) (db : database)
    : result unit * database :=
  let new_files := new_files album db in
  if 0 <? length new_files then insert_all album new_files db
  else (Ok (), db).

Definition main (a : args) (w : world) : result unit * world * list line :=
  match Album.init (album_root w) with
  | Raise e => (Raise e, w, [])
  | Ok album =>
      let index := AlbumIndex.init album in
      if delete_index a then
        if AlbumIndex.exists_ index then
          match unlink false index with
          | Raise e => (Raise e, w, [])
          | Ok gone => (Ok (), set_index w album gone, [])
          end
        else (Ok (), w, [])
      else
        let connected :=
          match index with
          | None => AlbumIndex.initialize index   (* [not index.exists()] *)
          | Some db => Ok db
          end in
        match connected with
        | Raise e => (Raise e, w, [])
        | Ok db =>
            let '(r, db) := sync (entries album) db in
            let w := set_index w album (Some db) in
            match r with
            | Raise e => (Raise e, w, [])
            | Ok _ =>
                match find_face a with
                | None => (Ok (), w, [])
                | Some path =>
                    match AlbumIndex.find_face db (lookup_path (elsewhere w) path) with
                    | (Raise e, out) => (Raise e, w, out)
                    | (Ok images, out) =>
                        (Ok (), w, out ++ Found (length images) :: (ImagePath <$> images))
                    end
                end
            end
        end
  end.
End main.

(** ** The error kinds of the specification, as the program raises them *)

Definition AmbiguousQuery : exn :=
  Exception "Support for multiple faces is input is unimplemented".
Definition AlreadyExists : exn := Exception "index already exists".
Definition NotFound : exn := FileNotFoundError.

(** The class of an exception, [type(e).__name__]. *)
Definition exn_type (e : exn) : string :=
  match e with
  | Exception _ => "Exception"
  | FileNotFoundError => "FileNotFoundError"
  | IsADirectoryError => "IsADirectoryError"
  | TypeError _ => "TypeError"
  | IndexError => "IndexError"
  | OSError => "OSError"
  | UnidentifiedImageError => "UnidentifiedImageError"
  end.

(** ** Auxiliary notions *)

Section notions.
Context `{External}.

(** The extractor accepts the file that [filename] names in the album. *)
Definition extractable (album : list (string * node)) (filename : string) : Prop :=
  is_Ok (load_image_file (lookup_path album filename)).

(** The rows [insert] adds to [link] for a file with these embeddings. *)
Definition link_rows (filename : string) (encodings : list encoding)
    : list (string * bytes) :=
  (λ encoding, (filename, adapt_numpy_array encoding)) <$> encodings.

(** The stored embedding rows of one file. *)
Definition embeddings_of (filename : string) (db : database) : list (string * bytes) :=
  filter (λ row, row.1 = filename) (link db).

(** Referential integrity: every embedding row belongs to a recorded file. *)
Definition well_formed (db : database) : Prop :=
  ∀ row, row ∈ link db → row.1 ∈ files db.

(** The [link] rows written when the files of [done] have been inserted
    in turn. *)
Definition rows_of (album : list (string * node)) (done : list string)
  : list (string * bytes) :=
  done ≫= λ filename,
  match load_image_file (lookup_path album filename) with
    | Ok img => link_rows filename (face_encodings img)
    | Raise _ => []
  end.

(** The store after the files of [done] have been inserted in turn. *)
Definition extended (album : list (string * node)) (done : list string)
  (db : database) : database :=
  {| files := files db ++ done; link := link db ++ rows_of album done |}.

(** A file is settled in a store when it is recorded there without any
    embedding row. *)
Definition settled (filename : string) (db : database) : Prop :=
  filename ∈ AlbumIndex.list_files db ∧ embeddings_of filename db = [].

(** One later run of the synchronisation, on any album snapshot. *)
Definition sync_step (db db' : database) : Prop :=
  ∃ album, (sync album db).2 = db'.
End notions.

(** ** A small instance of the external libraries, for concrete runs

    A file is an image when it starts with byte [x89]; decoding fails on a
    file whose second byte is [xff]; every further byte is one face, whose
    embedding is the byte's value; two embeddings show the same person
    when they agree on the high four bits. *)

Module Sample.
Definition sample_is_image (b : bytes) : bool :=
  match b with Byte.x89 :: _ => true | _ => false end.

Definition sample_decode (b : bytes) : option bytes :=
  match b with
  | [] => None
  | _ :: Byte.xff :: _ => None
  | _ :: faces => Some faces
  end.

Definition sample_loads (b : bytes) : nat :=
  match b with x :: _ => Byte.to_nat x | [] => 0 end.

Definition sample_dumps (n : nat) : bytes :=
  match Byte.of_nat n with Some x => [x] | None => [] end.

Definition libs : External := {|
  image := bytes;
  encoding := nat;
  is_image := sample_is_image;
  decode := sample_decode;
  face_encodings := map Byte.to_nat;
  compare_faces := λ known candidate, known / 16 =? candidate / 16;
  npy_dumps := sample_dumps;
  npy_loads := sample_loads
|}.

Definition empty_db : database := {| files := []; link := [] |}.

(** [a.jpg] shows one face, [b.jpg] none, [c.jpg] one face of the same
    person as [a.jpg]; [notes.txt] is no image. *)
Definition album3 : list (string * node) :=
  [ ("a.jpg", Regular [Byte.x89; Byte.x41]);
    ("sub", Directory);
    ("b.jpg", Regular [Byte.x89]);
    ("notes.txt", Regular [Byte.x68; Byte.x69]);
    ("sub/c.jpg", Regular [Byte.x89; Byte.x42]) ].

(** [bad.jpg] has an image signature but cannot be decoded. *)
Definition album_bad : list (string * node) :=
  [ ("bad.jpg", Regular [Byte.x89; Byte.xff]);
    ("good.jpg", Regular [Byte.x89; Byte.x41]) ].

(** A file the extractor rejects between two it accepts. *)
Definition album_mixed : list (string * node) :=
[ ("a.jpg", Regular [Byte.x89; Byte.x41]);
  ("bad.jpg", Regular [Byte.x89; Byte.xff]);
  ("z.jpg", Regular [Byte.x89; Byte.x42]) ].

(** An album with one picture, and the index a run builds for it. *)
Definition album_old : list (string * node) :=
[ ("old.jpg", Regular [Byte.x89; Byte.x41]) ].

Definition db_old : database :=
{| files := ["old.jpg"]; link := [("old.jpg", [Byte.x41])] |}.

(** The index a run builds for [album3]. *)
Definition db3 : database :=
{| files := ["a.jpg"; "b.jpg"; "sub/c.jpg"];
   link := [("a.jpg", [Byte.x41]); ("sub/c.jpg", [Byte.x42])] |}.

(** [album3] with a second face on [a.jpg], indexed. *)
Definition db_two_faces : database :=
{| files := ["a.jpg"; "b.jpg"];
   link := [("a.jpg", [Byte.x41]); ("a.jpg", [Byte.x4a]); ("b.jpg", [Byte.x71])] |}.

Definition world_of (album : list (string * node)) (index : option database) : world :=
{| album_root := AlbumDir {| entries := album; index_file := index |};
   elsewhere := [ ("query.png", Regular [Byte.x89; Byte.x4f]);
                  ("crowd.png", Regular [Byte.x89; Byte.x41; Byte.x72]);
                  ("empty.png", Regular [Byte.x89]) ] |}.
End Sample.

(** ** Notions for whole runs *)

(** The index file of the album a world holds, when there is one. *)
Definition index_of (w : world) : option database :=
  match album_root w with
  | AlbumDir d => index_file d
  | _ => None
  end.

(** The album's paths, when the album argument names a directory. *)
Definition album_entries (w : world) : option (list (string * node)) :=
  match album_root w with
  | AlbumDir d => Some (entries d)
  | _ => None
  end.

Section run_notions.
Context `{External}.

(** The index a world holds, if any, keeps its embedding rows attached to
    recorded files and records no filename twice. *)
Definition index_consistent (w : world) : Prop :=
  ∀ db, index_of w = Some db → well_formed db ∧ NoDup (files db).

(** The album's image files, in listing order, once for every face in the
    file that the comparator matches with [query]. *)
Definition album_matches (album : list (string * node)) (query : encoding)
    : list string :=
  Album.list_files album ≫= λ filename,
    match load_image_file (lookup_path album filename) with
    | Ok img =>
        (λ _, filename) <$> filter (λ known, compare_faces known query) (face_encodings img)
    | Raise _ => []
    end.
End run_notions.

(** ** A second instance of the external libraries

    As [Sample.libs], but an embedding is the face's byte itself, which
    the codec stores and reads back unchanged. *)

Module SampleExact.
Definition exact_loads (b : bytes) : Byte.byte :=
  match b with x :: _ => x | [] => Byte.x00 end.

Definition libs : External := {|
  image := bytes;
  encoding := Byte.byte;
  is_image := Sample.sample_is_image;
  decode := Sample.sample_decode;
  face_encodings := λ faces, faces;
  compare_faces := λ known candidate, Byte.to_nat known / 16 =? Byte.to_nat candidate / 16;
  npy_dumps := λ x, [x];
  npy_loads := exact_loads
|}.
End SampleExact.

(** [Sample.album3] after [a.jpg] has been damaged on disk. *)
Definition album3_damaged : list (string * node) :=
  [ ("a.jpg", Regular [Byte.x89; Byte.xff]);
    ("sub", Directory);
    ("b.jpg", Regular [Byte.x89]);
    ("notes.txt", Regular [Byte.x68; Byte.x69]);
    ("sub/c.jpg", Regular [Byte.x89; Byte.x42]) ].

(** * Properties *)

(** ** The storage codec *)

Section codec_facts.
Context `{External}.

(** The adapter returns exactly the bytes [numpy.save] wrote: the stream
    is rewound before it is read. *)
Lemma adapt_numpy_array_eq (arr : encoding) :
  adapt_numpy_array arr = npy_dumps arr.
Proof.
  unfold adapt_numpy_array, numpy_save, BytesIO.write, BytesIO.read; simpl.
  by rewrite drop_nil, app_nil_r.
Qed.

Lemma convert_numpy_array_eq (text : bytes) :
  convert_numpy_array text = npy_loads text.
Proof. reflexivity. Qed.

(** Reading back a stored embedding is [numpy.load] after [numpy.save]:
    the two functions add nothing of their own to the stored bytes. *)
Lemma convert_adapt (arr : encoding) :
  convert_numpy_array (adapt_numpy_array arr) = npy_loads (npy_dumps arr).
Proof. by rewrite convert_numpy_array_eq, adapt_numpy_array_eq. Qed.
End codec_facts.

(** ** [AlbumIndex.insert] *)

Section insert_facts.
Context `{External}.

Lemma insert_rows (filename : string) (encodings : list encoding) (db : database) :
  foldl (λ db encoding,
           {| files := files db;
              link := link db ++ [(filename, adapt_numpy_array encoding)] |})
        db encodings
  = {| files := files db; link := link db ++ link_rows filename encodings |}.
Proof.
  revert db. induction encodings as [|encoding encodings IH]; intros db; simpl.
  - rewrite app_nil_r. by destruct db.
  - rewrite IH. simpl. by rewrite <- app_assoc.
Qed.

(** [insert] succeeds exactly when the extractor does, whatever the store
    holds, and then appends one [files] row and one [link] row per face. *)
Lemma insert_eq (album : list (string * node)) (filename : string) (db : database) :
  AlbumIndex.insert album filename db =
  match load_image_file (lookup_path album filename) with
  | Raise e => Raise e
  | Ok img => Ok {| files := files db ++ [filename];
                    link := link db ++ link_rows filename (face_encodings img) |}
  end.
Proof.
  unfold AlbumIndex.insert.
  destruct (load_image_file _) as [img|e]; [|done].
  by rewrite insert_rows.
Qed.

Lemma insert_Ok_extractable album filename db db' :
  AlbumIndex.insert album filename db = Ok db' → extractable album filename.
Proof.
  rewrite insert_eq. unfold extractable.
  by destruct (load_image_file _).
Qed.

Lemma insert_Raise album filename db e :
  AlbumIndex.insert album filename db = Raise e ↔
  load_image_file (lookup_path album filename) = Raise e.
Proof.
  rewrite insert_eq. destruct (load_image_file _); split; congruence.
Qed.

Lemma insert_Raise_not_extractable album filename db e :
  AlbumIndex.insert album filename db = Raise e → ¬ extractable album filename.
Proof.
  rewrite insert_Raise. unfold extractable. intros ->. simpl. tauto.
Qed.
End insert_facts.

(** ** The insertion loop and [sync] *)

Section sync_facts.
Context `{External}.

Lemma extended_nil album db : extended album [] db = db.
Proof. unfold extended, rows_of. simpl. rewrite !app_nil_r. by destruct db. Qed.

Lemma extended_cons album filename done db img :
  load_image_file (lookup_path album filename) = Ok img →
  extended album (filename :: done) db =
  extended album done
    {| files := files db ++ [filename];
       link := link db ++ link_rows filename (face_encodings img) |}.
Proof.
  intros Himg. unfold extended, rows_of. simpl. rewrite Himg.
  by rewrite <- !app_assoc.
Qed.

(** The loop inserts the files up to the first one the extractor rejects
    and stops there with that exception. *)
Lemma insert_all_spec album (l : list string) db :
  ∃ done rest,
    l = done ++ rest ∧
    Forall (extractable album) done ∧
    (insert_all album l db).2 = extended album done db ∧
    ((rest = [] ∧ (insert_all album l db).1 = Ok ()) ∨
     (∃ filename rest' e,
        rest = filename :: rest' ∧
        load_image_file (lookup_path album filename) = Raise e ∧
        (insert_all album l db).1 = Raise e)).
Proof.
  revert db. induction l as [|filename l IH]; intros db.
  - exists [], []. simpl. rewrite extended_nil. split_and!; auto.
  - simpl. rewrite insert_eq.
    destruct (load_image_file (lookup_path album filename)) as [img|e] eqn:Himg.
    + destruct (IH {| files := files db ++ [filename];
                      link := link db ++ link_rows filename (face_encodings img) |})
        as (done & rest & -> & Hdone & Hdb & Hres).
      exists (filename :: done), rest. split_and!; [done| | |done].
      * constructor; [|done]. unfold extractable. by rewrite Himg.
      * rewrite Hdb. symmetry. by apply extended_cons.
    + exists [], (filename :: l). simpl. rewrite extended_nil.
      split_and!; [done|constructor|done|]. right. by exists filename, l, e.
Qed.

Lemma sync_eq album db :
  sync album db = insert_all album (new_files album db) db.
Proof.
  unfold sync. destruct (new_files album db); reflexivity.
Qed.

Lemma list_files_extended album done db :
  AlbumIndex.list_files (extended album done db)
  = AlbumIndex.list_files db ∪ list_to_set done.
Proof. unfold AlbumIndex.list_files. simpl. by rewrite list_to_set_app_L. Qed.

Lemma new_files_not_indexed album db filename :
  filename ∈ new_files album db →
  (filename ∉ AlbumIndex.list_files db) ∧ (filename ∈ Album.list_files album).
Proof. unfold new_files. by rewrite list_elem_of_filter. Qed.

(** Rows of [rows_of] carry the names of the inserted files. *)
Lemma rows_of_names album done row :
  row ∈ rows_of album done → row.1 ∈ done.
Proof.
  unfold rows_of. rewrite list_elem_of_bind. intros (filename & Hrow & Hin).
  destruct (load_image_file _) as [img|e]; [|by apply elem_of_nil in Hrow].
  unfold link_rows in Hrow. apply list_elem_of_fmap in Hrow as (enc & -> & _).
  done.
Qed.

(** [sync] only appends: the store afterwards is the old store extended by
    some of the new files, a prefix of them. *)
Lemma sync_extends album db :
  ∃ done rest,
    new_files album db = done ++ rest ∧
    Forall (extractable album) done ∧
    (sync album db).2 = extended album done db ∧
    ((rest = [] ∧ (sync album db).1 = Ok ()) ∨
     (∃ filename rest' e,
        rest = filename :: rest' ∧
        load_image_file (lookup_path album filename) = Raise e ∧
        (sync album db).1 = Raise e)).
Proof. rewrite sync_eq. apply insert_all_spec. Qed.
End sync_facts.

(** ** Idempotence of the synchronisation *)

Section idempotence.
Context `{External}.

Lemma filter_not_elem_of_all (done l : list string) :
  Forall (λ filename, filename ∈ done) l →
  filter (λ filename, filename ∉ done) l = [].
Proof.
  induction 1 as [|filename l Hin _ IH]; [done|].
  by rewrite filter_cons_False by tauto.
Qed.

Lemma new_files_extended album done db :
  new_files album (extended album done db)
  = filter (λ filename, filename ∉ done) (new_files album db).
Proof.
  unfold new_files. rewrite list_files_extended, list_filter_filter.
  apply list_filter_iff. intros filename.
  rewrite not_elem_of_union, elem_of_list_to_set. tauto.
Qed.

(** After a run, the files still to be indexed are those the run did not
    reach. *)
Lemma new_files_after album done rest db :
  new_files album db = done ++ rest →
  new_files album (extended album done db)
  = filter (λ filename, filename ∉ done) rest.
Proof.
  intros Hnew. rewrite new_files_extended, Hnew, filter_app.
  rewrite filter_not_elem_of_all; [done|]. by apply Forall_forall.
Qed.

(** C1 (amended).  For every album snapshot and every store, a second run
    of the synchronisation right after a first one ends the same way as
    the first and leaves the store exactly as the first run left it: no
    row is inserted a second time.  When the first run completed, the
    second run's list of new files is empty; after a run that the
    extractor aborted it need not be, and the second run then ends with
    the same exception. *)
Theorem sync_idempotent (album : list (string * node)) (db : database) :
  sync album (sync album db).2 = sync album db ∧
  ((sync album db).1 = Ok () → new_files album (sync album db).2 = []).
Proof.
  destruct (sync_extends album db)
    as (done & rest & Hnew & Hdone & Hdb & [[-> Hok]|(f & rest' & e & -> & Hf & Hraise)]).
  - assert (new_files album (sync album db).2 = []) as Hnone.
    { rewrite Hdb. by rewrite (new_files_after _ _ _ _ Hnew). }
    split; [|done].
    rewrite (sync_eq album (sync album db).2), Hnone. simpl.
    destruct (sync album db) as [r db1]. simpl in *. by subst.
  - assert (f ∉ done) as Hfresh.
    { intros Hin. rewrite Forall_forall in Hdone. specialize (Hdone _ Hin).
      unfold extractable in Hdone. by rewrite Hf in Hdone. }
    split; [|by rewrite Hraise].
    rewrite (sync_eq album (sync album db).2).
    rewrite Hdb at 1. rewrite (new_files_after _ _ _ _ Hnew).
    rewrite filter_cons_True by done. simpl.
    rewrite insert_eq, Hf.
    destruct (sync album db) as [r db1]. simpl in *. by subst.
Qed.
End idempotence.

(** ** What [sync] leaves in the store *)

Section completeness.
Context `{External}.

(** The album's listing: the paths of the regular files whose content is
    sniffed as an image. *)
Lemma elem_of_Album_list_files (album : list (string * node)) (filename : string) :
  filename ∈ Album.list_files album ↔
  ∃ content, (filename, Regular content) ∈ album ∧ is_image content = true.
Proof.
  unfold Album.list_files. rewrite list_elem_of_fmap. split.
  - intros ([name n] & -> & Hin). apply list_elem_of_filter in Hin as [Hp Hin].
    simpl in *. destruct n as [| | |content]; simpl in Hp; try done.
    exists content. split; [done|]. by apply Is_true_eq_true.
  - intros (content & Hin & Himg). exists (filename, Regular content).
    split; [done|]. apply list_elem_of_filter. split; [|done].
    simpl. by rewrite Himg.
Qed.

Lemma list_to_set_new_files album db :
  AlbumIndex.list_files db ∪ list_to_set (new_files album db)
  =@{gset string} AlbumIndex.list_files db ∪ list_to_set (Album.list_files album).
Proof.
  apply set_eq. intros filename. unfold new_files.
  rewrite !elem_of_union, !elem_of_list_to_set, list_elem_of_filter.
  destruct (decide (filename ∈ AlbumIndex.list_files db)); tauto.
Qed.

Lemma sync_Ok_list_files (album : list (string * node)) (db db' : database) :
  sync album db = (Ok (), db') →
  AlbumIndex.list_files db'
    = AlbumIndex.list_files db ∪ list_to_set (Album.list_files album).
Proof.
  intros Hsync.
  destruct (sync_extends album db)
    as (done & rest & Hnew & _ & Hdb & [[-> _]|(f & rest' & e & _ & _ & Hraise)]).
  - rewrite Hsync in Hdb. simpl in Hdb. rewrite app_nil_r in Hnew.
    rewrite Hdb, list_files_extended, <- Hnew. apply list_to_set_new_files.
  - by rewrite Hsync in Hraise.
Qed.

(** C5 (amended).  When [sync] completes, the indexed filenames are those
    indexed before together with the album's image files: the regular
    files under the root whose content is sniffed as an image.  They are
    exactly the album's image files when the store held no other name
    before, as a freshly initialised store does. *)
Theorem sync_complete (album : list (string * node)) (db db' : database) :
  sync album db = (Ok (), db') →
  AlbumIndex.list_files db'
    = AlbumIndex.list_files db ∪ list_to_set (Album.list_files album) ∧
  (AlbumIndex.list_files db ⊆ list_to_set (Album.list_files album) →
   AlbumIndex.list_files db' = list_to_set (Album.list_files album)) ∧
  (∀ filename,
     filename ∈ Album.list_files album ↔
     ∃ content, (filename, Regular content) ∈ album ∧ is_image content = true).
Proof.
  intros Hsync. pose proof (sync_Ok_list_files album db db' Hsync) as Heq.
  split_and!; [done| |apply elem_of_Album_list_files].
  intros Hsub. rewrite Heq. apply set_eq. intros filename.
  rewrite elem_of_union. split; [|tauto]. intros [Hin|Hin]; [|done]. by apply Hsub.
Qed.
End completeness.

(** ** A failing extraction *)

Section failure.
Context `{External}.

Lemma insert_all_extractable album (done : list string) db :
  Forall (extractable album) done →
  insert_all album done db = (Ok (), extended album done db).
Proof.
  intros Hdone. revert db.
  induction Hdone as [|filename done Hf _ IH]; intros db; simpl.
  - by rewrite extended_nil.
  - rewrite insert_eq. unfold extractable in Hf.
    destruct (load_image_file (lookup_path album filename)) as [img|e] eqn:Himg;
      [|done].
    rewrite IH. f_equal. symmetry. by apply extended_cons.
Qed.

Lemma insert_all_stops album (done : list string) filename rest e db :
  Forall (extractable album) done →
  load_image_file (lookup_path album filename) = Raise e →
  insert_all album (done ++ filename :: rest) db = (Raise e, extended album done db).
Proof.
  intros Hdone Hf. revert db.
  induction Hdone as [|g done Hg _ IH]; intros db; simpl.
  - by rewrite insert_eq, Hf, extended_nil.
  - rewrite insert_eq. unfold extractable in Hg.
    destruct (load_image_file (lookup_path album g)) as [img|e'] eqn:Himg; [|done].
    rewrite IH. f_equal. symmetry. by apply extended_cons.
Qed.

(** C2 (amended).  A failure of the extractor is not caught: when it fails
    on one of the new files, the run stops there with the extractor's
    exception.  The new files before it are recorded; the failing file and
    the files after it that were not already among the recorded ones stay
    out of the index, and the failing file is the first new file of the
    next run. *)
Theorem sync_stops_at_first_failure (album : list (string * node)) (db : database)
    (done : list string) (filename : string) (rest : list string) (e : exn) :
  new_files album db = done ++ filename :: rest →
  Forall (extractable album) done →
  load_image_file (lookup_path album filename) = Raise e →
  sync album db = (Raise e, extended album done db) ∧
  (filename ∉ AlbumIndex.list_files (extended album done db)) ∧
  (∀ later, later ∈ rest → later ∉ done →
            later ∉ AlbumIndex.list_files (extended album done db)) ∧
  head (new_files album (extended album done db)) = Some filename.
Proof.
  intros Hnew Hdone Hf.
  assert (filename ∉ done) as Hfresh.
  { intros Hin. rewrite Forall_forall in Hdone. specialize (Hdone _ Hin).
    unfold extractable in Hdone. by rewrite Hf in Hdone. }
  assert (∀ g, g ∈ filename :: rest → g ∉ AlbumIndex.list_files db) as Hnot.
  { intros g Hg. apply (new_files_not_indexed album). rewrite Hnew.
    apply elem_of_app. by right. }
  split_and!.
  - rewrite sync_eq, Hnew. by apply insert_all_stops.
  - rewrite list_files_extended, not_elem_of_union, elem_of_list_to_set.
    split; [|done]. apply Hnot. by left.
  - intros later Hin Hlater.
    rewrite list_files_extended, not_elem_of_union, elem_of_list_to_set.
    split; [|done]. apply Hnot. by right.
  - rewrite (new_files_after _ _ _ _ Hnew). by rewrite filter_cons_True.
Qed.
End failure.

(** ** Duplicate insertion *)

Section duplicates.
Context `{External}.

Lemma NoDup_Album_list_files (album : list (string * node)) :
  NoDup album.*1 → NoDup (Album.list_files album).
Proof.
  intros Hnodup. unfold Album.list_files.
  eapply sublist_NoDup; [exact Hnodup|].
  apply fmap_sublist, sublist_filter.
Qed.

(** Over an album whose paths are distinct, [sync] keeps [files] free of
    duplicates. *)
Lemma sync_NoDup (album : list (string * node)) (db : database) :
  NoDup album.*1 → NoDup (files db) → NoDup (files (sync album db).2).
Proof.
  intros Halbum Hdb.
  destruct (sync_extends album db) as (done & rest & Hnew & _ & -> & _).
  simpl. apply NoDup_app. split_and!; [done| |].
  - intros filename Hin Hdone.
    assert (filename ∈ new_files album db) as Hf.
    { rewrite Hnew. apply elem_of_app. by left. }
    apply new_files_not_indexed in Hf as [Hf _]. apply Hf.
    by apply elem_of_list_to_set.
  - assert (NoDup (new_files album db)) as Hnd.
    { apply NoDup_filter. by apply NoDup_Album_list_files. }
    rewrite Hnew in Hnd. by apply NoDup_app in Hnd as [? _].
Qed.

(** C3 (amended).  [insert] does not look for an existing entry: on a
    filename that is already recorded it succeeds whenever the extractor
    accepts the file, and appends a further [files] row for it, so the
    table then holds the name at least twice while the set of filenames is
    unchanged.  A second entry is kept out by the caller: the new files
    [main] inserts are not recorded names, and over distinct album paths
    the synchronisation leaves no name twice in [files]. *)
Theorem insert_accepts_recorded_filename (album : list (string * node))
    (db : database) (filename : string) :
  (filename ∈ AlbumIndex.list_files db → extractable album filename →
   ∃ db', AlbumIndex.insert album filename db = Ok db' ∧
          files db' = files db ++ [filename] ∧
          AlbumIndex.list_files db' = AlbumIndex.list_files db ∧
          2 ≤ length (filter (λ name, name = filename) (files db'))) ∧
  (filename ∈ new_files album db → filename ∉ AlbumIndex.list_files db) ∧
  (NoDup album.*1 → NoDup (files db) → NoDup (files (sync album db).2)).
Proof.
  split_and!.
  - intros Hin Hf. rewrite insert_eq. unfold extractable in Hf.
    destruct (load_image_file (lookup_path album filename)) as [img|e]; [|done].
    eexists. split; [done|]. simpl. split_and!; [done| |].
    + unfold AlbumIndex.list_files in *. simpl.
      rewrite list_to_set_app_L. apply set_eq. intros name.
      rewrite elem_of_union, !elem_of_list_to_set, list_elem_of_singleton.
      apply elem_of_list_to_set in Hin. split; [|tauto].
      by intros [?| ->].
    + apply elem_of_list_to_set, list_elem_of_split in Hin as (l1 & l2 & ->).
      rewrite !filter_app, filter_cons_True by done.
      rewrite (filter_cons_True _ filename []) by done.
      rewrite !length_app. simpl. lia.
  - intros Hin. by apply new_files_not_indexed in Hin as [? _].
  - apply sync_NoDup.
Qed.
End duplicates.

(** ** Files without a face *)

Section zero_faces.
Context `{External}.

Lemma well_formed_empty : well_formed {| files := []; link := [] |}.
Proof. intros row Hrow. by apply elem_of_nil in Hrow. Qed.

Lemma well_formed_extended album done db :
  well_formed db → well_formed (extended album done db).
Proof.
  intros Hwf row. unfold extended. simpl. rewrite !elem_of_app.
  intros [Hrow|Hrow]; [left; by apply Hwf|right; by eapply rows_of_names].
Qed.

(** Every store [main] builds keeps the embedding rows attached to
    recorded files. *)
Lemma well_formed_sync album db :
  well_formed db → well_formed (sync album db).2.
Proof.
  intros Hwf. destruct (sync_extends album db) as (done & rest & _ & _ & -> & _).
  by apply well_formed_extended.
Qed.

Lemma embeddings_of_unrecorded filename db :
  well_formed db → filename ∉ AlbumIndex.list_files db →
  embeddings_of filename db = [].
Proof.
  intros Hwf Hnew. unfold embeddings_of.
  destruct (filter _ (link db)) as [|row rows] eqn:Hrows; [done|].
  assert (row ∈ filter (λ row, row.1 = filename) (link db)) as Hrow
    by (rewrite Hrows; left).
  apply list_elem_of_filter in Hrow as [<- Hrow]. destruct Hnew.
  by apply elem_of_list_to_set, Hwf.
Qed.

Lemma embeddings_of_extended album done filename db :
  (∀ img, filename ∈ done →
          load_image_file (lookup_path album filename) = Ok img →
          face_encodings img = []) →
  embeddings_of filename (extended album done db) = embeddings_of filename db.
Proof.
  intros Hzero. unfold embeddings_of, extended. simpl. rewrite filter_app.
  destruct (filter _ (rows_of album done)) as [|row rows] eqn:Hrows;
    [by rewrite app_nil_r|].
  assert (row ∈ filter (λ row, row.1 = filename) (rows_of album done)) as Hrow
    by (rewrite Hrows; left).
  apply list_elem_of_filter in Hrow as [Hname Hrow].
  unfold rows_of in Hrow. apply list_elem_of_bind in Hrow as (g & Hrow & Hg).
  destruct (load_image_file (lookup_path album g)) as [img|e] eqn:Himg;
    [|by apply elem_of_nil in Hrow].
  unfold link_rows in Hrow. apply list_elem_of_fmap in Hrow as (enc & -> & Henc).
  simpl in Hname. subst g. rewrite (Hzero img Hg Himg) in Henc.
  by apply elem_of_nil in Henc.
Qed.

Lemma settled_sync_step filename db db' :
  settled filename db → sync_step db db' → settled filename db'.
Proof.
  intros [Hin Hrows] [album <-].
  destruct (sync_extends album db) as (done & rest & Hnew & _ & -> & _).
  assert (filename ∉ done) as Hfresh.
  { intros Hdone.
    assert (filename ∈ new_files album db) as Hf
      by (rewrite Hnew; apply elem_of_app; by left).
    by apply new_files_not_indexed in Hf as [? _]. }
  split.
  - rewrite list_files_extended. apply elem_of_union. by left.
  - by rewrite embeddings_of_extended.
Qed.

Lemma settled_later filename db db' :
  settled filename db → rtc sync_step db db' → settled filename db'.
Proof. intros Hs Hrtc. induction Hrtc; eauto using settled_sync_step. Qed.

Lemma settled_not_new filename db album :
  settled filename db → filename ∉ new_files album db.
Proof. intros [Hin _] Hnew. by apply new_files_not_indexed in Hnew as [? _]. Qed.

(** C6.  A new file in which the extractor finds no face is still
    recorded: [insert] succeeds on it, adds its name to the indexed
    filenames and adds no embedding row, so the file has none; the same
    holds after any completed synchronisation of an album that lists the
    file.  From then on, through any number of later synchronisations over
    any album snapshots, the file stays recorded without embeddings and is
    never among the new files again. *)
Theorem zero_face_file_recorded (album : list (string * node)) (db : database)
    (filename : string) (img : image) :
  well_formed db →
  filename ∉ AlbumIndex.list_files db →
  load_image_file (lookup_path album filename) = Ok img →
  face_encodings img = [] →
  (∃ db', AlbumIndex.insert album filename db = Ok db' ∧
          link db' = link db ∧ settled filename db') ∧
  (∀ db', sync album db = (Ok (), db') →
          filename ∈ Album.list_files album → settled filename db') ∧
  (∀ db' db'' album',
     settled filename db' → rtc sync_step db' db'' →
     settled filename db'' ∧ filename ∉ new_files album' db'').
Proof.
  intros Hwf Hnew Himg Hzero.
  pose proof (embeddings_of_unrecorded _ _ Hwf Hnew) as Hnone.
  split_and!.
  - rewrite insert_eq, Himg, Hzero. eexists. split; [done|].
    unfold link_rows. simpl. rewrite app_nil_r. split; [done|]. split.
    + unfold AlbumIndex.list_files. simpl. rewrite list_to_set_app_L.
      apply elem_of_union. right. apply elem_of_list_to_set. by left.
    + exact Hnone.
  - intros db' Hsync Hlisted.
    pose proof (sync_Ok_list_files album db db' Hsync) as Hfiles.
    destruct (sync_extends album db) as (done & rest & _ & _ & Hdb & _).
    rewrite Hsync in Hdb. simpl in Hdb. split.
    + rewrite Hfiles. apply elem_of_union. right. by apply elem_of_list_to_set.
    + rewrite Hdb, embeddings_of_extended; [done|].
      intros img' _ Himg'. rewrite Himg in Himg'. by injection Himg' as <-.
  - intros db' db'' album' Hs Hrtc.
    pose proof (settled_later _ _ _ Hs Hrtc) as Hs'.
    split; [done|]. by apply settled_not_new.
Qed.
End zero_faces.

(** ** Deleting the index *)

Section deletion.
Context `{External}.

(** The caller of the deletion: with [--delete-index], [main] checks first
    whether the index exists.  When no index exists it does not reach
    [unlink] and returns normally; when one exists it removes the index
    file and nothing else. *)
Lemma delete_index_guarded (a : args) (w : world) (d : album_dir) :
  delete_index a = true →
  album_root w = AlbumDir d →
  (index_file d = None → main a w = (Ok (), w, [])) ∧
  (∀ db, index_file d = Some db →
     ∃ w' d',
       main a w = (Ok (), w', []) ∧
       album_root w' = AlbumDir d' ∧
       entries d' = entries d ∧
       elsewhere w' = elsewhere w ∧
       AlbumIndex.exists_ (AlbumIndex.init d') = false).
Proof.
  intros Hdel Hroot. unfold main. rewrite Hroot, Hdel. simpl.
  unfold AlbumIndex.init. split.
  - by intros ->.
  - intros db ->. simpl. by eexists _, _.
Qed.

(** C4.  The deletion is [unlink(missing_ok=False)] on the index path.
    Invoked when no index exists it raises the not-found exception and
    never returns normally.  Invoked on an existing index it removes the
    file, so that an [AlbumIndex] opened afterwards reports that the index
    does not exist; this is what [main] does with [--delete-index] on an
    album that has an index, leaving every other file as it was. *)
Theorem delete_raises_or_removes (d : album_dir) :
  (index_file d = None →
   unlink false (AlbumIndex.init d) = Raise NotFound ∧
   is_Ok (unlink false (AlbumIndex.init d)) = false) ∧
  (∀ db, index_file d = Some db →
     ∃ gone,
       unlink false (AlbumIndex.init d) = Ok gone ∧
       AlbumIndex.exists_
         (AlbumIndex.init {| entries := entries d; index_file := gone |}) = false) ∧
  (∀ a w db,
     delete_index a = true → album_root w = AlbumDir d → index_file d = Some db →
     ∃ w' d',
       main a w = (Ok (), w', []) ∧
       album_root w' = AlbumDir d' ∧
       entries d' = entries d ∧
       elsewhere w' = elsewhere w ∧
       AlbumIndex.exists_ (AlbumIndex.init d') = false).
Proof.
  split_and!.
  - unfold AlbumIndex.init. by intros ->.
  - unfold AlbumIndex.init. intros db ->. by exists None.
  - intros a w db Hdel Hroot Hindex.
    destruct (delete_index_guarded a w d Hdel Hroot) as [_ Hsome].
    exact (Hsome db Hindex).
Qed.
End deletion.

(** ** The face query *)

Section query.
Context `{External}.

(** What [main] does after the synchronisation has completed: the query
    runs on the synchronised index and changes nothing. *)
Lemma main_query (a : args) (w : world) (w' : world) (path : string) :
  delete_index a = false →
  find_face a = Some path →
  main {| find_face := None; delete_index := false |} w = (Ok (), w', []) →
  ∃ d db,
    album_root w' = AlbumDir d ∧ index_file d = Some db ∧
    elsewhere w' = elsewhere w ∧
    main a w =
    match AlbumIndex.find_face db (lookup_path (elsewhere w) path) with
    | (Raise e, out) => (Raise e, w', out)
    | (Ok images, out) =>
        (Ok (), w', out ++ Found (length images) :: (ImagePath <$> images))
    end.
Proof.
  intros Hdel Hpath. unfold main. rewrite Hdel, Hpath. simpl.
  destruct (Album.init (album_root w)) as [album|e] eqn:Halbum; [|done].
  destruct (match AlbumIndex.init album with
            | Some db => Ok db
            | None => AlbumIndex.initialize (AlbumIndex.init album)
            end) as [db|e]; [|done].
  destruct (sync (entries album) db) as [[[]|e] db1]; [|done].
  intros [= <-]. eexists _, db1. simpl. split_and!; [done..|].
  by destruct (AlbumIndex.find_face db1 _) as [[images|e] out].
Qed.

Lemma length_filter_fst {B} (name : string) (rows : list (string * B)) :
  length (filter (λ x, x = name) (fst <$> rows))
  = length (filter (λ row, row.1 = name) rows).
Proof.
  induction rows as [|row rows IH]; [done|].
  rewrite fmap_cons, !filter_cons.
  destruct (decide (row.1 = name)); [rewrite !length_cons|]; by rewrite IH.
Qed.

(** C8 (amended).  When the extractor finds more than one face in the
    query image, [find_face] picks no face and returns no filename: it
    raises a plain [Exception] with a message of its own.  The exception
    has the same class as the one [initialize] raises for an existing
    index and differs from it by the message only.  Nothing catches it:
    in [main] it ends the run, after the synchronisation, whose result is
    kept, and before anything is printed. *)
Theorem find_face_ambiguous (db : database) (path : option node) (img : image) :
  load_image_file path = Ok img →
  1 < length (face_encodings img) →
  AlbumIndex.find_face db path
  = (Raise (Exception "Support for multiple faces is input is unimplemented"), []) ∧
  exn_type AmbiguousQuery = exn_type AlreadyExists ∧
  AmbiguousQuery ≠ AlreadyExists ∧
  (∀ a w w' p,
     delete_index a = false → find_face a = Some p →
     lookup_path (elsewhere w) p = path →
     main {| find_face := None; delete_index := false |} w = (Ok (), w', []) →
     main a w = (Raise AmbiguousQuery, w', []) ∧
     is_Ok (main a w).1.1 = false).
Proof.
  intros Himg Hmany.
  assert (∀ db', AlbumIndex.find_face db' path = (Raise AmbiguousQuery, [])) as Hfind.
  { intros db'. unfold AlbumIndex.find_face. rewrite Himg.
    destruct (face_encodings img) as [|q1 [|q2 encodings]]; simpl in *; [lia..|done]. }
  split_and!; [apply Hfind|done..|].
  intros a w w' p Hdel Hp Hpath Hsync.
  destruct (main_query a w w' p Hdel Hp Hsync) as (d & db' & _ & _ & _ & ->).
  by rewrite Hpath, Hfind.
Qed.

(** C9.  When the extractor finds no face in the query image, [find_face]
    raises nothing and returns the empty list; [main] then ends normally,
    reporting zero images. *)
Theorem find_face_no_face (db : database) (path : option node) (img : image) :
  load_image_file path = Ok img →
  face_encodings img = [] →
  AlbumIndex.find_face db path = (Ok [], [NoFaceFound]) ∧
  (∀ a w w' p,
     delete_index a = false → find_face a = Some p →
     lookup_path (elsewhere w) p = path →
     main {| find_face := None; delete_index := false |} w = (Ok (), w', []) →
     main a w = (Ok (), w', [NoFaceFound; Found 0])).
Proof.
  intros Himg Hnone.
  assert (∀ db', AlbumIndex.find_face db' path = (Ok [], [NoFaceFound])) as Hfind.
  { intros db'. unfold AlbumIndex.find_face. by rewrite Himg, Hnone. }
  split; [done|].
  intros a w w' p Hdel Hp Hpath Hsync.
  destruct (main_query a w w' p Hdel Hp Hsync) as (d & db' & _ & _ & _ & ->).
  by rewrite Hpath, Hfind.
Qed.

(** C10.  When the extractor finds exactly one face in the query image,
    [find_face] returns, in the order of [list_links], the filename of
    every stored pair whose embedding the comparator matches with the
    query embedding: a filename occurs as many times as it has matching
    pairs, nothing is removed. *)
Theorem find_face_one_per_match (db : database) (path : option node)
    (img : image) (query : encoding) :
  load_image_file path = Ok img →
  face_encodings img = [query] →
  AlbumIndex.find_face db path
  = (Ok (fst <$> filter (λ row, compare_faces row.2 query) (AlbumIndex.list_links db)),
     []) ∧
  (∀ images, AlbumIndex.find_face db path = (Ok images, []) →
   ∀ name,
     length (filter (λ x, x = name) images)
     = length (filter (λ row, row.1 = name ∧ compare_faces row.2 query)
                      (AlbumIndex.list_links db))).
Proof.
  intros Himg Hone.
  assert (AlbumIndex.find_face db path
          = (Ok (fst <$> filter (λ row, compare_faces row.2 query)
                                (AlbumIndex.list_links db)), [])) as Hfind.
  { unfold AlbumIndex.find_face. by rewrite Himg, Hone. }
  split; [done|]. intros images. rewrite Hfind. intros [= <-] name.
  by rewrite length_filter_fst, list_filter_filter.
Qed.
End query.

(** * Further properties of the program *)

(** ** When the synchronisation succeeds, and what it keeps *)

Section sync_more.
Context `{External}.

Lemma sync_Ok_extended (album : list (string * node)) (db db' : database) :
  sync album db = (Ok (), db') →
  Forall (extractable album) (new_files album db) ∧
  db' = extended album (new_files album db) db.
Proof.
  intros Hsync.
  destruct (sync_extends album db)
    as (done & rest & Hnew & Hdone & Hdb & [[-> _]|(f & rest' & e & _ & _ & Hraise)]).
  - rewrite app_nil_r in Hnew. rewrite Hsync in Hdb. by rewrite Hnew.
  - by rewrite Hsync in Hraise.
Qed.

(** [sync] completes exactly when the extractor accepts every new file;
    the store is then the old one with all new files inserted, in the
    album's listing order. *)
Theorem sync_Ok_iff (album : list (string * node)) (db : database) :
  ((sync album db).1 = Ok () ↔ Forall (extractable album) (new_files album db)) ∧
  ((sync album db).1 = Ok () →
   (sync album db).2 = extended album (new_files album db) db).
Proof.
  assert ((sync album db).1 = Ok () →
          Forall (extractable album) (new_files album db) ∧
          (sync album db).2 = extended album (new_files album db) db) as Hok.
  { intros Hres. apply sync_Ok_extended.
    destruct (sync album db) as [r db']. simpl in Hres. by subst. }
  split; [split|]; [apply Hok| |apply Hok].
  intros Hall. by rewrite sync_eq, insert_all_extractable.
Qed.

Lemma sync_step_prefix (db db' : database) :
  sync_step db db' →
  files db `prefix_of` files db' ∧ link db `prefix_of` link db'.
Proof.
  intros [album <-].
  destruct (sync_extends album db) as (done & rest & _ & _ & -> & _).
  split; simpl; by eexists.
Qed.

Lemma list_files_later (db db' : database) :
  rtc sync_step db db' → AlbumIndex.list_files db ⊆ AlbumIndex.list_files db'.
Proof.
  induction 1 as [db|db db1 db2 Hstep _ IH]; [done|].
  etrans; [|exact IH]. apply sync_step_prefix in Hstep as [[l Hl] _].
  intros name. unfold AlbumIndex.list_files.
  rewrite !elem_of_list_to_set, Hl, elem_of_app. tauto.
Qed.

(** The store is append-only: through any number of synchronisations,
    completed or aborted, over any album snapshots, the rows present at
    the start stay where they are, in both tables, and no filename leaves
    the set of indexed names. *)
Theorem later_syncs_append_only (db db' : database) :
  rtc sync_step db db' →
  files db `prefix_of` files db' ∧
  link db `prefix_of` link db' ∧
  AlbumIndex.list_files db ⊆ AlbumIndex.list_files db'.
Proof.
  intros Hrtc. split_and!; [| |by apply list_files_later].
  - induction Hrtc as [db|db db1 db2 Hstep _ IH]; [done|].
    etrans; [|exact IH]. by apply sync_step_prefix in Hstep as [? _].
  - induction Hrtc as [db|db db1 db2 Hstep _ IH]; [done|].
    etrans; [|exact IH]. by apply sync_step_prefix in Hstep as [_ ?].
Qed.

Lemma new_files_nil_iff (album : list (string * node)) (db : database) :
  new_files album db = [] ↔
  list_to_set (Album.list_files album) ⊆ AlbumIndex.list_files db.
Proof.
  unfold new_files. split.
  - intros Hnil name Hname. apply elem_of_list_to_set in Hname.
    destruct (decide (name ∈ AlbumIndex.list_files db)) as [|Hout]; [done|].
    by destruct (filter_nil_not_elem_of _ _ name Hnil Hout).
  - intros Hsub.
    induction (Album.list_files album) as [|name l IH]; [done|].
    rewrite filter_cons_False.
    + apply IH. intros x Hx. apply Hsub. rewrite list_to_set_cons.
      apply elem_of_union. by right.
    + intros Hout. apply Hout, Hsub. rewrite list_to_set_cons.
      apply elem_of_union. left. by apply elem_of_singleton.
Qed.

(** [sync] returns normally and leaves the store untouched exactly when
    every image file of the album is already indexed.  Indexed files are
    not read again: this holds whatever the extractor would now say about
    them. *)
Theorem sync_noop_iff (album : list (string * node)) (db : database) :
  sync album db = (Ok (), db) ↔
  list_to_set (Album.list_files album) ⊆ AlbumIndex.list_files db.
Proof.
  rewrite <- new_files_nil_iff. split.
  - intros Hsync.
    destruct (sync_extends album db)
      as (done & rest & Hnew & _ & Hdb & [[-> _]|(f & rest' & e & _ & _ & Hraise)]).
    + rewrite Hsync in Hdb. simpl in Hdb. rewrite app_nil_r in Hnew.
      apply (f_equal files) in Hdb. simpl in Hdb.
      rewrite Hnew. apply (app_inv_head (files db)). by rewrite app_nil_r.
    + by rewrite Hsync in Hraise.
  - intros Hnil. by rewrite sync_eq, Hnil.
Qed.

(** Once a synchronisation has completed, no image file of that album
    snapshot is ever a new file again: not in any later run, over any
    later snapshot, whether the later runs complete or not. *)
Theorem indexed_files_never_new (album : list (string * node))
    (db db1 db2 : database) :
  sync album db = (Ok (), db1) →
  rtc sync_step db1 db2 →
  ∀ album' filename,
    filename ∈ Album.list_files album → filename ∉ new_files album' db2.
Proof.
  intros Hsync Hlater album' filename Hlisted Hnew.
  apply new_files_not_indexed in Hnew as [Hout _]. apply Hout.
  apply (list_files_later _ _ Hlater).
  rewrite (sync_Ok_list_files _ _ _ Hsync). apply elem_of_union. right.
  by apply elem_of_list_to_set.
Qed.
Lemma lookup_path_app_l (album more : list (string * node)) (filename : string) :
  filename ∈ album.*1 →
  lookup_path (album ++ more) filename = lookup_path album filename.
Proof.
  intros Hin. apply list_elem_of_fmap in Hin as (entry & -> & Hin).
  destruct (list_find_elem_of (λ e, e.1 = entry.1) album entry Hin eq_refl)
    as [[i found] Hfind].
  unfold lookup_path. by rewrite (list_find_app_l _ _ _ _ _ Hfind), Hfind.
Qed.

Lemma Album_list_files_paths (album : list (string * node)) (filename : string) :
  filename ∈ Album.list_files album → filename ∈ album.*1.
Proof.
  unfold Album.list_files. rewrite !list_elem_of_fmap.
  intros (entry & -> & Hin). apply list_elem_of_filter in Hin as [_ Hin].
  by exists entry.
Qed.

Lemma rows_of_agree (album album' : list (string * node)) (done : list string) :
  Forall (λ filename, lookup_path album' filename = lookup_path album filename) done →
  rows_of album' done = rows_of album done.
Proof.
  unfold rows_of. induction 1 as [|filename done Hf _ IH]; [done|].
  by rewrite !bind_cons, IH, Hf.
Qed.

Lemma extended_app (album : list (string * node)) (l1 l2 : list string)
    (db : database) :
  extended album (l1 ++ l2) db = extended album l2 (extended album l1 db).
Proof.
  unfold extended, rows_of. simpl. by rewrite bind_app, !app_assoc.
Qed.

Lemma filter_all (P : string → Prop) `{!∀ x, Decision (P x)} (l : list string) :
  Forall P l → filter P l = l.
Proof.
  induction 1 as [|x l Hx _ IH]; [done|]. by rewrite filter_cons_True, IH.
Qed.

Lemma new_files_grown (album album0 : list (string * node)) (done : list string)
    (db : database) :
  new_files album (extended album0 done db)
  = filter (λ filename, filename ∉ done) (new_files album db).
Proof.
  unfold new_files. rewrite list_files_extended, list_filter_filter.
  apply list_filter_iff. intros filename.
  rewrite not_elem_of_union, elem_of_list_to_set. tauto.
Qed.

(** Indexing in two steps gives the same store as indexing at once.  When
    the album grows by files that the directory walk yields after the old
    ones (all paths distinct), a completed synchronisation of the old
    album followed by one of the grown album leaves exactly the store that
    a single synchronisation of the grown album builds from the start. *)
Theorem sync_in_two_steps (album more : list (string * node))
    (db db1 db2 : database) :
  NoDup (album ++ more).*1 →
  sync album db = (Ok (), db1) →
  sync (album ++ more) db1 = (Ok (), db2) →
  sync (album ++ more) db = (Ok (), db2).
Proof.
  intros Hnodup Hfirst Hsecond.
  apply sync_Ok_extended in Hfirst as [Hall1 ->].
  apply sync_Ok_extended in Hsecond as [Hall2 ->].
  rewrite fmap_app in Hnodup. apply NoDup_app in Hnodup as (_ & Hdisjoint & _).
  assert (∀ f, f ∈ new_files album db → f ∈ album.*1) as Hold.
  { intros f Hf. apply new_files_not_indexed in Hf as [_ Hf].
    by apply Album_list_files_paths. }
  assert (new_files (album ++ more) db
          = new_files album db ++ new_files more db) as Hsplit.
  { unfold new_files, Album.list_files. by rewrite filter_app, fmap_app, filter_app. }
  assert (new_files (album ++ more) (extended album (new_files album db) db)
          = new_files more db) as Hrest.
  { rewrite new_files_grown, Hsplit, filter_app.
    rewrite filter_not_elem_of_all by by apply Forall_forall.
    simpl. apply filter_all, Forall_forall. intros f Hf Hin.
    apply new_files_not_indexed in Hf as [_ Hf].
    apply Album_list_files_paths in Hf. by apply (Hdisjoint f); [apply Hold|]. }
  rewrite Hrest in *.
  assert (Forall (λ f, lookup_path (album ++ more) f = lookup_path album f)
                 (new_files album db)) as Hsame.
  { apply Forall_forall. intros f Hf. by apply lookup_path_app_l, Hold. }
  rewrite sync_eq, Hsplit, insert_all_extractable.
  - rewrite extended_app. do 2 f_equal.
    unfold extended. by rewrite (rows_of_agree _ _ _ Hsame).
  - apply Forall_app. split; [|done].
    rewrite Forall_forall in Hall1, Hsame. apply Forall_forall. intros f Hf.
    unfold extractable. rewrite (Hsame f Hf). by apply Hall1.
Qed.
End sync_more.

(** ** Whole runs of [main] *)

Section main_more.
Context `{External}.

(** The four ways [find_face] can end. *)
Lemma find_face_cases (db : database) (path : option node) :
  (∃ e, load_image_file path = Raise e ∧
        AlbumIndex.find_face db path = (Raise e, [])) ∨
  (∃ img, load_image_file path = Ok img ∧ face_encodings img = [] ∧
          AlbumIndex.find_face db path = (Ok [], [NoFaceFound])) ∨
  (∃ img query, load_image_file path = Ok img ∧ face_encodings img = [query] ∧
      AlbumIndex.find_face db path
      = (Ok (fst <$> filter (λ row, compare_faces row.2 query)
                            (AlbumIndex.list_links db)), [])) ∨
  (∃ img, load_image_file path = Ok img ∧ 1 < length (face_encodings img) ∧
          AlbumIndex.find_face db path = (Raise AmbiguousQuery, [])).
Proof.
  unfold AlbumIndex.find_face.
  destruct (load_image_file path) as [img|e]; [|left; by exists e].
  right. destruct (face_encodings img) as [|query [|other encodings]] eqn:Henc.
  - left. by exists img.
  - right. left. by exists img, query.
  - right. right. exists img. rewrite Henc. simpl. split_and!; [done|lia|done].
Qed.

(** A run without [--delete-index] on an album directory, step by step:
    the index found, or a new empty one, is synchronised; the query, if
    any, runs on the result. *)
Lemma main_sync_eq (a : args) (w : world) (d : album_dir) :
  album_root w = AlbumDir d →
  delete_index a = false →
  main a w =
  let db0 := default {| files := []; link := [] |} (index_file d) in
  let db1 := (sync (entries d) db0).2 in
  let w1 := set_index w d (Some db1) in
  match (sync (entries d) db0).1 with
  | Raise e => (Raise e, w1, [])
  | Ok _ =>
      match find_face a with
      | None => (Ok (), w1, [])
      | Some path =>
          match AlbumIndex.find_face db1 (lookup_path (elsewhere w) path) with
          | (Raise e, out) => (Raise e, w1, out)
          | (Ok images, out) =>
              (Ok (), w1, out ++ Found (length images) :: (ImagePath <$> images))
          end
      end
  end.
Proof.
  intros Hroot Hdel. unfold main. rewrite Hroot, Hdel. simpl.
  unfold AlbumIndex.init.
  destruct (index_file d) as [db0|]; simpl;
    by destruct (sync (entries d) _) as [[[]|e] db1].
Qed.

Lemma main_delete_eq (a : args) (w : world) (d : album_dir) :
  album_root w = AlbumDir d →
  delete_index a = true →
  main a w = (Ok (), match index_file d with
                    | Some _ => set_index w d None
                    | None => w
                    end, []).
Proof.
  intros Hroot Hdel. unfold main. rewrite Hroot, Hdel. simpl.
  unfold AlbumIndex.init. by destruct (index_file d).
Qed.

Lemma main_no_album (a : args) (w : world) :
  (∀ d, album_root w ≠ AlbumDir d) →
  ∃ e, main a w = (Raise e, w, []) ∧
       (e = FileNotFoundError ∨ e = TypeError "album needs to be a directory").
Proof.
  intros Hnone. unfold main. destruct (album_root w) as [| |d] eqn:Hroot; simpl.
  - eexists. split; [done|tauto].
  - eexists. split; [done|tauto].
  - by destruct (Hnone d).
Qed.


(** The world a run leaves behind, in all cases. *)
Lemma main_world (a : args) (w : world) :
  (main a w).1.2 =
  match album_root w with
  | AlbumDir d =>
      if delete_index a then
        match index_file d with
        | Some _ => set_index w d None
        | None => w
        end
      else
        set_index w d
          (Some (sync (entries d)
                      (default {| files := []; link := [] |} (index_file d))).2)
  | _ => w
  end.
Proof.
  destruct (album_root w) as [| |d] eqn:Hroot.
  - destruct (main_no_album a w) as (e & -> & _); [intros d; by rewrite Hroot|done].
  - destruct (main_no_album a w) as (e & -> & _); [intros d; by rewrite Hroot|done].
  - destruct (delete_index a) eqn:Hdel.
    + by rewrite (main_delete_eq a w d Hroot Hdel).
    + rewrite (main_sync_eq a w d Hroot Hdel). simpl.
      destruct (sync (entries d) _).1 as [[]|e]; [|done].
      destruct (find_face a) as [path|]; [|done].
      by destruct (AlbumIndex.find_face _ _) as [[images|e] out].
Qed.


(** [main] never changes the album's files nor any other file it reads:
    only the index file can differ afterwards.  When the album argument
    names no directory, it raises, prints nothing and changes nothing. *)
Theorem main_keeps_album_files (a : args) (w : world) :
  album_entries (main a w).1.2 = album_entries w ∧
  elsewhere (main a w).1.2 = elsewhere w ∧
  (album_entries w = None →
   (main a w).1.2 = w ∧ (main a w).2 = [] ∧ is_Ok (main a w).1.1 = false).
Proof.
  unfold album_entries.
  destruct (album_root w) as [| |d] eqn:Hroot.
  - destruct (main_no_album a w) as (e & -> & _); [intros d; by rewrite Hroot|].
    simpl. by rewrite Hroot.
  - destruct (main_no_album a w) as (e & -> & _); [intros d; by rewrite Hroot|].
    simpl. by rewrite Hroot.
  - split_and!; [| |done].
    + destruct (delete_index a) eqn:Hdel.
      * rewrite (main_delete_eq a w d Hroot Hdel). simpl.
        destruct (index_file d); simpl; [done|by rewrite Hroot].
      * rewrite (main_sync_eq a w d Hroot Hdel). simpl.
        destruct (sync (entries d) _).1 as [[]|e]; [|done].
        destruct (find_face a) as [path|]; [|done].
        by destruct (AlbumIndex.find_face _ _) as [[images|e] out].
    + destruct (delete_index a) eqn:Hdel.
      * rewrite (main_delete_eq a w d Hroot Hdel). simpl.
        by destruct (index_file d).
      * rewrite (main_sync_eq a w d Hroot Hdel). simpl.
        destruct (sync (entries d) _).1 as [[]|e]; [|done].
        destruct (find_face a) as [path|]; [|done].
        by destruct (AlbumIndex.find_face _ _) as [[images|e] out].
Qed.

(** A run without [--delete-index] on an album directory always leaves an
    index file behind, also when it started without one and also when it
    ends with an exception.  The index left only grew: the rows of the
    index found stay in front, in both tables, and every further name is
    an image file of the album.  When the run returns normally, every
    image file of the album is indexed.  The files left behind do not
    depend on the query. *)
Theorem main_leaves_index (a : args) (w : world) (d : album_dir) :
  album_root w = AlbumDir d →
  delete_index a = false →
  ∃ db,
    index_of (main a w).1.2 = Some db ∧
    files (default {| files := []; link := [] |} (index_file d)) `prefix_of` files db ∧
    link (default {| files := []; link := [] |} (index_file d)) `prefix_of` link db ∧
    (∀ name, name ∈ files db →
       name ∈ files (default {| files := []; link := [] |} (index_file d)) ∨
       name ∈ Album.list_files (entries d)) ∧
    ((main a w).1.1 = Ok () →
     list_to_set (Album.list_files (entries d)) ⊆ AlbumIndex.list_files db) ∧
    (∀ a', delete_index a' = false → (main a' w).1.2 = (main a w).1.2).
Proof.
  intros Hroot Hdel.
  set (db0 := default {| files := []; link := [] |} (index_file d)).
  exists (sync (entries d) db0).2.
  destruct (sync_extends (entries d) db0) as (done & rest & Hnew & _ & Hdb & _).
  split_and!.
  - by rewrite main_world, Hroot, Hdel.
  - rewrite Hdb. simpl. by eexists.
  - rewrite Hdb. simpl. by eexists.
  - intros name. rewrite Hdb. simpl. rewrite elem_of_app.
    intros [Hold|Hin]; [by left|right].
    apply (new_files_not_indexed (entries d) db0). rewrite Hnew.
    apply elem_of_app. by left.
  - rewrite (main_sync_eq a w d Hroot Hdel). simpl. fold db0. intros Hok.
    destruct (sync (entries d) db0) as [[[]|e] db1] eqn:Hsync; [|done].
    simpl. rewrite (sync_Ok_list_files _ _ _ Hsync).
    intros name Hname. apply elem_of_union. by right.
  - intros a' Hdel'. by rewrite !main_world, Hroot, Hdel, Hdel'.
Qed.

(** The index keeps its invariants over whole runs: when the album's paths
    are distinct and the index found, if any, has its embedding rows
    attached to recorded files and no filename twice, the same holds for
    the index the run leaves, however the run ends. *)
Theorem main_keeps_index_consistent (a : args) (w : world) :
  (∀ album, album_entries w = Some album → NoDup album.*1) →
  index_consistent w →
  index_consistent (main a w).1.2.
Proof.
  intros Hpaths Hwf. rewrite main_world.
  destruct (album_root w) as [| |d] eqn:Hroot; [done..|].
  destruct (delete_index a).
  { destruct (index_file d); [|done]. intros db. unfold index_of. by simpl. }
  intros db. unfold index_of. simpl. intros [= <-].
  assert (well_formed (default {| files := []; link := [] |} (index_file d)) ∧
          NoDup (files (default {| files := []; link := [] |} (index_file d))))
    as [Hwf0 Hnd0].
  { destruct (index_file d) as [db0|] eqn:Hindex; simpl.
    - apply Hwf. unfold index_of. by rewrite Hroot.
    - split; [apply well_formed_empty|constructor]. }
  split; [by apply well_formed_sync|].
  apply sync_NoDup; [|done]. apply Hpaths. unfold album_entries. by rewrite Hroot.
Qed.


Lemma new_files_fresh (album : list (string * node)) :
  new_files album {| files := []; link := [] |} = Album.list_files album.
Proof.
  unfold new_files.
  induction (Album.list_files album) as [|name l IH]; [done|].
  rewrite filter_cons_True; [by rewrite IH|].
  unfold AlbumIndex.list_files. simpl. apply not_elem_of_empty.
Qed.

(** Deleting the index and running again rebuilds it from nothing: when
    the second run completes, the index records exactly the album's image
    files, once each per listing and in listing order, with the embedding
    rows of those files only.  Names of files that have left the album are
    gone. *)
Theorem delete_then_rebuild (w w1 w2 : world) (d : album_dir) (out : list line) :
  album_root w = AlbumDir d →
  (main {| find_face := None; delete_index := true |} w).1.2 = w1 →
  main {| find_face := None; delete_index := false |} w1 = (Ok (), w2, out) →
  ∃ db,
    index_of w2 = Some db ∧
    files db = Album.list_files (entries d) ∧
    link db = rows_of (entries d) (Album.list_files (entries d)) ∧
    AlbumIndex.list_files db = list_to_set (Album.list_files (entries d)).
Proof.
  intros Hroot Hdel Hrun. rewrite main_world, Hroot in Hdel. simpl in Hdel.
  assert (album_root w1 = AlbumDir {| entries := entries d; index_file := None |})
    as Hroot1.
  { destruct (index_file d) eqn:Hindex; subst w1; [done|].
    rewrite Hroot. destruct d. simpl in *. by subst. }
  pose proof (main_sync_eq {| find_face := None; delete_index := false |} w1 _
                Hroot1 eq_refl) as Hmain.
  rewrite Hrun in Hmain. simpl in Hmain.
  destruct (sync (entries d) {| files := []; link := [] |}) as [r db] eqn:Hsync.
  simpl in Hmain. destruct r as [[]|e]; [|done].
  injection Hmain as -> _.
  destruct (sync_extends (entries d) {| files := []; link := [] |})
    as (done & rest & Hnew & _ & Hdb & [[-> _]|(f & rest' & e & _ & _ & Hraise)]);
    [|by rewrite Hsync in Hraise].
  rewrite Hsync in Hdb. simpl in Hdb.
  rewrite app_nil_r, new_files_fresh in Hnew. subst done.
  exists db. subst db. unfold index_of, AlbumIndex.list_files. simpl.
  split_and!; done.
Qed.
End main_more.


(** ** The stored embeddings and the query *)

Section query_more.
Context `{External}.

Lemma elem_of_list_links (db : database) (row : string * encoding) :
  row ∈ AlbumIndex.list_links db →
  ∃ stored, stored ∈ link db ∧ stored.1 = row.1.
Proof.
  unfold AlbumIndex.list_links. rewrite list_elem_of_fmap.
  intros (stored & -> & Hin). by exists stored.
Qed.

Lemma find_face_from_links (db : database) (path : option node)
    (images : list string) (out : list line) (name : string) :
  AlbumIndex.find_face db path = (Ok images, out) →
  name ∈ images →
  ∃ stored, stored ∈ link db ∧ stored.1 = name.
Proof.
  intros Hfind Hin.
  destruct (find_face_cases db path)
    as [(e & _ & Hf)|[(img & _ & _ & Hf)|
        [(img & query & _ & _ & Hf)|(img & _ & _ & Hf)]]];
    rewrite Hf in Hfind; try done.
  - injection Hfind as <- _. by apply elem_of_nil in Hin.
  - injection Hfind as <- _. apply list_elem_of_fmap in Hin as (row & -> & Hrow).
    apply list_elem_of_filter in Hrow as [_ Hrow].
    by apply elem_of_list_links.
Qed.

(** A query only returns indexed files: in an index whose embedding rows
    belong to recorded files, every filename [find_face] returns is among
    the indexed filenames, and there are at most as many results as
    stored embeddings. *)
Theorem find_face_returns_indexed (db : database) (path : option node)
    (images : list string) (out : list line) :
  well_formed db →
  AlbumIndex.find_face db path = (Ok images, out) →
  (∀ name, name ∈ images → name ∈ AlbumIndex.list_files db) ∧
  length images ≤ length (link db).
Proof.
  intros Hwf Hfind. split.
  - intros name Hin.
    destruct (find_face_from_links _ _ _ _ _ Hfind Hin) as (stored & Hstored & <-).
    by apply elem_of_list_to_set, Hwf.
  - destruct (find_face_cases db path)
      as [(e & _ & Hf)|[(img & _ & _ & Hf)|
          [(img & query & _ & _ & Hf)|(img & _ & _ & Hf)]]];
      rewrite Hf in Hfind; try done.
    + injection Hfind as <- _. simpl. lia.
    + injection Hfind as <- _. rewrite length_fmap.
      etrans; [apply length_filter|].
      unfold AlbumIndex.list_links. by rewrite length_fmap.
Qed.

(** A file recorded without a face is never returned by a query, whatever
    the query picture. *)
Theorem find_face_skips_faceless (db : database) (path : option node)
    (images : list string) (out : list line) (filename : string) :
  settled filename db →
  AlbumIndex.find_face db path = (Ok images, out) →
  filename ∉ images.
Proof.
  intros [_ Hnone] Hfind Hin.
  destruct (find_face_from_links _ _ _ _ _ Hfind Hin) as (stored & Hstored & Hname).
  assert (stored ∈ embeddings_of filename db) as Hrow.
  { unfold embeddings_of. by apply list_elem_of_filter. }
  rewrite Hnone in Hrow. by apply elem_of_nil in Hrow.
Qed.

Lemma list_links_rows (filename : string) (encodings : list encoding) :
  Forall (λ e, npy_loads (npy_dumps e) = e) encodings →
  (λ row, (row.1, convert_numpy_array row.2)) <$> link_rows filename encodings
  = (λ e, (filename, e)) <$> encodings.
Proof.
  induction 1 as [|e encodings He _ IH]; [done|].
  unfold link_rows in *. rewrite !fmap_cons, IH. simpl.
  by rewrite convert_adapt, He.
Qed.

(** Storing and reading back.  When [numpy.load] gives back the arrays
    [numpy.save] wrote for the faces of a picture, inserting the picture
    appends to [list_links] one pair of the filename and the embedding per
    face, in the extractor's order, leaves the pairs already stored as they
    were, and adds the filename to the indexed names. *)
Theorem insert_then_list_links (album : list (string * node)) (filename : string)
    (db : database) (img : image) :
  load_image_file (lookup_path album filename) = Ok img →
  Forall (λ e, npy_loads (npy_dumps e) = e) (face_encodings img) →
  ∃ db',
    AlbumIndex.insert album filename db = Ok db' ∧
    AlbumIndex.list_links db'
    = AlbumIndex.list_links db ++ ((λ e, (filename, e)) <$> face_encodings img) ∧
    AlbumIndex.list_files db' = AlbumIndex.list_files db ∪ {[ filename ]}.
Proof.
  intros Himg Hcodec. rewrite insert_eq, Himg. eexists. split; [done|].
  unfold AlbumIndex.list_links, AlbumIndex.list_files. simpl. split.
  - by rewrite fmap_app, list_links_rows.
  - rewrite list_to_set_app_L. simpl. by rewrite union_empty_r_L.
Qed.

Lemma list_links_rows_of (album : list (string * node)) (done : list string) :
  (∀ e, npy_loads (npy_dumps e) = e) →
  (λ row, (row.1, convert_numpy_array row.2)) <$> rows_of album done
  = done ≫= λ filename,
      match load_image_file (lookup_path album filename) with
      | Ok img => (λ e, (filename, e)) <$> face_encodings img
      | Raise _ => []
      end.
Proof.
  intros Hcodec. unfold rows_of.
  induction done as [|filename done IH]; [done|].
  rewrite !bind_cons, fmap_app, IH. f_equal.
  destruct (load_image_file (lookup_path album filename)) as [img|e]; [|done].
  apply list_links_rows. apply Forall_forall. auto.
Qed.

Lemma matches_of_file (filename : string) (query : encoding)
    (encodings : list encoding) :
  fst <$> filter (λ row, compare_faces row.2 query)
                 ((λ e, (filename, e)) <$> encodings)
  = (λ _, filename) <$> filter (λ known, compare_faces known query) encodings.
Proof.
  induction encodings as [|e encodings IH]; [done|].
  rewrite fmap_cons, !filter_cons. simpl.
  destruct (decide (compare_faces e query)); [rewrite !fmap_cons|]; by rewrite IH.
Qed.

(** From the album to the answer.  On an index built from nothing by a
    completed synchronisation, with a codec that reads back what it
    wrote, a query picture with one face is answered from the album
    itself: the result lists the album's image files in listing order,
    each once per face in the file that the comparator matches with the
    query face. *)
Theorem fresh_index_query (album : list (string * node)) (db : database)
    (path : option node) (img : image) (query : encoding) :
  (∀ e, npy_loads (npy_dumps e) = e) →
  sync album {| files := []; link := [] |} = (Ok (), db) →
  load_image_file path = Ok img →
  face_encodings img = [query] →
  AlbumIndex.find_face db path = (Ok (album_matches album query), []).
Proof.
  intros Hcodec Hsync Himg Hone.
  destruct (sync_extends album {| files := []; link := [] |})
    as (done & rest & Hnew & _ & Hdb & [[-> _]|(f & rest' & e & _ & _ & Hraise)]);
    [|by rewrite Hsync in Hraise].
  rewrite Hsync in Hdb. simpl in Hdb.
  rewrite app_nil_r, new_files_fresh in Hnew. subst done.
  unfold AlbumIndex.find_face. rewrite Himg, Hone. simpl. do 2 f_equal.
  unfold AlbumIndex.list_links. rewrite Hdb. simpl.
  rewrite (list_links_rows_of _ _ Hcodec). unfold album_matches.
  clear Hsync Hdb.
  induction (Album.list_files album) as [|filename l IH]; [done|].
  rewrite !bind_cons, filter_app, fmap_app, IH. f_equal.
  destruct (load_image_file (lookup_path album filename)) as [img'|e]; [|done].
  apply matches_of_file.
Qed.
End query_more.

(** ** The album listing and the codec *)

Section listing_more.
Context `{External}.

Lemma NoDup_fst_unique (album : list (string * node)) (name : string) (n1 n2 : node) :
  NoDup album.*1 → (name, n1) ∈ album → (name, n2) ∈ album → n1 = n2.
Proof.
  induction album as [|[x y] album IH]; [by intros _ ?%elem_of_nil|].
  rewrite fmap_cons, NoDup_cons. simpl. intros [Hfresh Hnodup].
  rewrite !elem_of_cons. intros [[= -> ->]|Hin1] [[= <-]|Hin2].
  - done.
  - destruct Hfresh. apply list_elem_of_fmap. by exists (x, n2).
  - subst. destruct Hfresh. apply list_elem_of_fmap. by exists (name, n1).
  - by apply IH.
Qed.

(** [Album.list_files] keeps the order of the directory walk and lists no
    path twice that the walk yields once.  Over distinct paths, a path is
    listed exactly when it names a regular file whose content is sniffed
    as an image: directories, other kinds of nodes and files of other
    types are left out. *)
Theorem Album_list_files_sublist (album : list (string * node)) :
  Album.list_files album `sublist_of` album.*1 ∧
  (NoDup album.*1 →
   NoDup (Album.list_files album) ∧
   ∀ name n, (name, n) ∈ album →
     (name ∈ Album.list_files album ↔
      ∃ content, n = Regular content ∧ is_image content = true)).
Proof.
  split.
  - unfold Album.list_files. apply fmap_sublist, sublist_filter.
  - intros Hnodup. split; [by apply NoDup_Album_list_files|].
    intros name n Hin. rewrite elem_of_Album_list_files. split.
    + intros (content & Hreg & Himage). exists content. split; [|done].
      symmetry. by apply (NoDup_fst_unique album name).
    + intros (content & -> & Himage). by exists content.
Qed.

(** The adapter hands sqlite3 exactly the bytes [numpy.save] wrote, from
    the first one on, and the converter hands [numpy.load] exactly the
    stored bytes: an embedding comes back from the store unchanged
    precisely when [numpy.load] inverts [numpy.save] on it. *)
Theorem codec_round_trip_iff (arr : encoding) :
  adapt_numpy_array arr = npy_dumps arr ∧
  (convert_numpy_array (adapt_numpy_array arr) = arr ↔
   npy_loads (npy_dumps arr) = arr).
Proof.
  split; [apply adapt_numpy_array_eq|]. by rewrite convert_adapt.
Qed.
End listing_more.

(** * Concrete runs *)

Section runs.
Import Sample.
Local Existing Instance libs.

(** The end-to-end scenario: three pictures, two of them of one person. *)
Example scenario_sync : sync album3 empty_db = (Ok (), db3).
Proof. reflexivity. Qed.

Example scenario_query :
  main {| find_face := Some "query.png"; delete_index := false |} (world_of album3 None)
  = (Ok (), world_of album3 (Some db3),
     [Found 2; ImagePath "a.jpg"; ImagePath "sub/c.jpg"]).
Proof. reflexivity. Qed.

Lemma sync_idempotent_witness :
  sync album3 (sync album3 empty_db).2 = sync album3 empty_db ∧
  new_files album3 (sync album3 empty_db).2 = [].
Proof.
  destruct (sync_idempotent album3 empty_db) as [Hsame Hnone].
  split; [exact Hsame|]. apply Hnone. reflexivity.
Defined.

(** C1, as stated, fails: after a run that the extractor aborted at
    [bad.jpg], the second run's new files are not empty. *)
Lemma sync_second_run_has_new_files :
  (sync album_mixed empty_db).1 = Raise UnidentifiedImageError ∧
  new_files album_mixed (sync album_mixed empty_db).2 = ["bad.jpg"; "z.jpg"] ∧
  new_files album_mixed (sync album_mixed empty_db).2 ≠ [].
Proof. split_and!; [reflexivity..|discriminate]. Qed.

(** A second run after an aborted one stops at the same file. *)
Example sync_twice_after_abort :
  sync album_mixed empty_db
  = (Raise UnidentifiedImageError, {| files := ["a.jpg"]; link := [("a.jpg", [Byte.x41])] |}) ∧
  sync album_mixed (sync album_mixed empty_db).2 = sync album_mixed empty_db.
Proof. split; reflexivity. Qed.

(** C2, as stated, fails: [bad.jpg] is rejected by the extractor, the run
    ends with that exception, and [z.jpg], which the extractor would have
    accepted, is not recorded. *)
Lemma sync_failure_aborts_run :
  load_image_file (lookup_path album_mixed "bad.jpg") = Raise UnidentifiedImageError ∧
  "z.jpg" ∈ new_files album_mixed empty_db ∧
  extractable album_mixed "z.jpg" ∧
  (sync album_mixed empty_db).1 = Raise UnidentifiedImageError ∧
  (sync album_mixed empty_db).1 ≠ Ok () ∧
  "z.jpg" ∉ AlbumIndex.list_files (sync album_mixed empty_db).2.
Proof.
  split_and!; [reflexivity| |exact I|reflexivity|discriminate|].
  - vm_compute. apply list_elem_of_In. simpl. tauto.
  - vm_compute. discriminate.
Qed.

Lemma sync_stops_at_first_failure_witness :
  sync album_mixed empty_db
  = (Raise UnidentifiedImageError, extended album_mixed ["a.jpg"] empty_db) ∧
  head (new_files album_mixed (extended album_mixed ["a.jpg"] empty_db)) = Some "bad.jpg".
Proof.
  destruct (sync_stops_at_first_failure album_mixed empty_db
              ["a.jpg"] "bad.jpg" ["z.jpg"] UnidentifiedImageError)
    as (Hsync & _ & _ & Hnext).
  - reflexivity.
  - repeat constructor.
  - reflexivity.
  - split; [exact Hsync|exact Hnext].
Defined.
(** C3, as stated, fails: [a.jpg] is already recorded, yet [insert]
    succeeds on it and the table then holds the name twice. *)
Lemma insert_recorded_filename_succeeds :
  "a.jpg" ∈ AlbumIndex.list_files db3 ∧
  AlbumIndex.insert album3 "a.jpg" db3
  = Ok {| files := ["a.jpg"; "b.jpg"; "sub/c.jpg"; "a.jpg"];
          link := [("a.jpg", [Byte.x41]); ("sub/c.jpg", [Byte.x42]);
                   ("a.jpg", [Byte.x41])] |} ∧
  is_Ok (AlbumIndex.insert album3 "a.jpg" db3) = true.
Proof.
  split_and!; [|reflexivity..].
  apply elem_of_list_to_set, list_elem_of_In. simpl. tauto.
Qed.

Lemma insert_accepts_recorded_filename_witness :
  ∃ db', AlbumIndex.insert album3 "a.jpg" db3 = Ok db' ∧
         files db' = files db3 ++ ["a.jpg"] ∧
         AlbumIndex.list_files db' = AlbumIndex.list_files db3 ∧
         2 ≤ length (filter (λ name, name = "a.jpg") (files db')).
Proof.
  apply (insert_accepts_recorded_filename album3 db3 "a.jpg").
  - apply elem_of_list_to_set, list_elem_of_In. simpl. tauto.
  - exact I.
Defined.

(** The guard in [main]: with no index in the album, [--delete-index] does
    not call [unlink] and returns normally. *)
Example delete_index_without_index :
  AlbumIndex.exists_ (AlbumIndex.init {| entries := album3; index_file := None |}) = false ∧
  main {| find_face := None; delete_index := true |} (world_of album3 None)
  = (Ok (), world_of album3 None, []) ∧
  (main {| find_face := None; delete_index := true |} (world_of album3 None)).1.1
  ≠ Raise NotFound.
Proof. split_and!; [reflexivity..|discriminate]. Qed.

Lemma delete_index_guarded_witness :
  main {| find_face := None; delete_index := true |} (world_of album3 None)
  = (Ok (), world_of album3 None, []) ∧
  ∃ w' d',
    main {| find_face := None; delete_index := true |} (world_of album3 (Some db3))
    = (Ok (), w', []) ∧
    album_root w' = AlbumDir d' ∧
    entries d' = album3 ∧
    elsewhere w' = elsewhere (world_of album3 (Some db3)) ∧
    AlbumIndex.exists_ (AlbumIndex.init d') = false.
Proof.
  split.
  - destruct (delete_index_guarded {| find_face := None; delete_index := true |}
                (world_of album3 None) {| entries := album3; index_file := None |}
                eq_refl eq_refl) as [Hnone _].
    apply Hnone. reflexivity.
  - destruct (delete_index_guarded {| find_face := None; delete_index := true |}
                (world_of album3 (Some db3))
                {| entries := album3; index_file := Some db3 |} eq_refl eq_refl)
      as [_ Hsome].
    apply (Hsome db3). reflexivity.
Defined.

Lemma delete_raises_or_removes_witness :
  unlink false (AlbumIndex.init {| entries := album3; index_file := None |})
  = Raise NotFound ∧
  ∃ w' d',
    main {| find_face := None; delete_index := true |} (world_of album3 (Some db3))
    = (Ok (), w', []) ∧
    album_root w' = AlbumDir d' ∧
    entries d' = album3 ∧
    elsewhere w' = elsewhere (world_of album3 (Some db3)) ∧
    AlbumIndex.exists_ (AlbumIndex.init d') = false.
Proof.
  split.
  - destruct (delete_raises_or_removes {| entries := album3; index_file := None |})
      as (Hnone & _ & _).
    apply Hnone. reflexivity.
  - destruct (delete_raises_or_removes {| entries := album3; index_file := Some db3 |})
      as (_ & _ & Hmain).
    apply (Hmain {| find_face := None; delete_index := true |}
                 (world_of album3 (Some db3)) db3); reflexivity.
Defined.

(** C5, as stated, fails: [old.jpg] was indexed by a first run and then
    removed from the album; after the next run it is still among the
    indexed filenames, while the album holds no image file. *)
Lemma sync_keeps_stale_filename :
  sync album_old empty_db = (Ok (), db_old) ∧
  sync [] db_old = (Ok (), db_old) ∧
  Album.list_files [] = [] ∧
  AlbumIndex.list_files db_old ≠ list_to_set (Album.list_files []).
Proof.
  split_and!; [reflexivity..|].
  intros Heq.
  assert ("old.jpg" ∈ AlbumIndex.list_files db_old) as Hin.
  { apply elem_of_list_to_set, list_elem_of_In. simpl. tauto. }
  rewrite Heq in Hin. simpl in Hin. by apply elem_of_empty in Hin.
Qed.

Lemma sync_complete_witness :
  sync album3 empty_db = (Ok (), db3) ∧
  AlbumIndex.list_files db3 = list_to_set (Album.list_files album3).
Proof.
  split; [reflexivity|].
  destruct (sync_complete album3 empty_db db3) as (_ & Hexact & _); [reflexivity|].
  apply Hexact. intros name Hname. by apply elem_of_empty in Hname.
Defined.

Lemma zero_face_file_recorded_witness :
  well_formed empty_db ∧
  ("b.jpg" ∉ AlbumIndex.list_files empty_db) ∧
  load_image_file (lookup_path album3 "b.jpg") = Ok ([] : bytes) ∧
  (∃ db', AlbumIndex.insert album3 "b.jpg" empty_db = Ok db' ∧
          link db' = link empty_db ∧ settled "b.jpg" db') ∧
  settled "b.jpg" db3.
Proof.
  assert ("b.jpg" ∉ AlbumIndex.list_files empty_db) as Hnew.
  { intros Hin. by apply elem_of_empty in Hin. }
  split_and!; [apply well_formed_empty|exact Hnew|reflexivity| |].
  - apply (@zero_face_file_recorded libs album3 empty_db "b.jpg" ([] : bytes)
             well_formed_empty Hnew eq_refl eq_refl).
  - destruct (@zero_face_file_recorded libs album3 empty_db "b.jpg" ([] : bytes)
                well_formed_empty Hnew eq_refl eq_refl) as (_ & Hsync & _).
    apply Hsync; [reflexivity|].
    apply list_elem_of_In. simpl. tauto.
Defined.

(** C8, as stated, fails: the exception for a query picture with two
    faces is a plain [Exception], of the same class as the one for an
    existing index, and it is fatal for more than the query: it ends the
    whole run of [main]. *)
Lemma ambiguous_query_ends_run :
  AlbumIndex.find_face db3 (Some (Regular [Byte.x89; Byte.x41; Byte.x72]))
  = (Raise (Exception "Support for multiple faces is input is unimplemented"), []) ∧
  AlbumIndex.initialize (Some db3) = Raise (Exception "index already exists") ∧
  exn_type (Exception "Support for multiple faces is input is unimplemented")
  = exn_type (Exception "index already exists") ∧
  is_Ok (main {| find_face := Some "crowd.png"; delete_index := false |}
              (world_of album3 None)).1.1 = false.
Proof. split_and!; reflexivity. Qed.

Lemma find_face_ambiguous_witness :
  AlbumIndex.find_face db3 (Some (Regular [Byte.x89; Byte.x41; Byte.x72]))
  = (Raise AmbiguousQuery, []) ∧
  main {| find_face := Some "crowd.png"; delete_index := false |} (world_of album3 None)
  = (Raise AmbiguousQuery, world_of album3 (Some db3), []).
Proof.
  destruct (@find_face_ambiguous libs db3 (Some (Regular [Byte.x89; Byte.x41; Byte.x72]))
              ([Byte.x41; Byte.x72] : bytes)) as (Hfind & _ & _ & Hmain).
  - reflexivity.
  - simpl. lia.
  - split; [exact Hfind|]. by apply (Hmain _ _ _ "crowd.png").
Defined.

Lemma find_face_no_face_witness :
  AlbumIndex.find_face db3 (Some (Regular [Byte.x89])) = (Ok [], [NoFaceFound]) ∧
  main {| find_face := Some "empty.png"; delete_index := false |} (world_of album3 None)
  = (Ok (), world_of album3 (Some db3), [NoFaceFound; Found 0]).
Proof.
  destruct (@find_face_no_face libs db3 (Some (Regular [Byte.x89])) ([] : bytes)
              eq_refl eq_refl)
    as (Hfind & Hmain).
  split; [exact Hfind|]. by apply (Hmain _ _ _ "empty.png").
Defined.

(** A file with two matching embeddings is returned twice. *)
Lemma find_face_one_per_match_witness :
  AlbumIndex.find_face db_two_faces (Some (Regular [Byte.x89; Byte.x4f]))
  = (Ok ["a.jpg"; "a.jpg"], []) ∧
  length (filter (λ x, x = "a.jpg") ["a.jpg"; "a.jpg"])
  = length (filter (λ row, row.1 = "a.jpg" ∧ compare_faces row.2 (79 : nat))
                   (AlbumIndex.list_links db_two_faces)).
Proof.
  destruct (@find_face_one_per_match libs db_two_faces (Some (Regular [Byte.x89; Byte.x4f]))
              ([Byte.x4f] : bytes) (79 : nat) eq_refl eq_refl) as (Hfind & Hcount).
  split; [exact Hfind|]. apply Hcount. exact Hfind.
Defined.
End runs.

(** * Concrete runs for the further properties *)

Section more_runs.
Import Sample.
Local Existing Instance libs.

Lemma sync_Ok_iff_witness :
  Forall (extractable album3) (new_files album3 empty_db) ∧
  (sync album3 empty_db).2 = extended album3 (new_files album3 empty_db) empty_db.
Proof.
  destruct (sync_Ok_iff album3 empty_db) as [[Hall _] Hdb].
  split; [apply Hall|apply Hdb]; reflexivity.
Defined.

Lemma later_syncs_append_only_witness :
  files db_old `prefix_of` files (sync album3 db_old).2 ∧
  link db_old `prefix_of` link (sync album3 db_old).2 ∧
  AlbumIndex.list_files db_old ⊆ AlbumIndex.list_files (sync album3 db_old).2.
Proof.
  apply (later_syncs_append_only db_old (sync album3 db_old).2).
  apply rtc_once. by exists album3.
Defined.

(** [a.jpg] is damaged after it was indexed: the run does not notice. *)
Lemma sync_noop_iff_witness :
  ¬ extractable album3_damaged "a.jpg" ∧
  sync album3_damaged db3 = (Ok (), db3).
Proof.
  split; [vm_compute; tauto|].
  apply (sync_noop_iff album3_damaged db3).
  intros name. unfold AlbumIndex.list_files.
  rewrite !elem_of_list_to_set, !list_elem_of_In. simpl. tauto.
Defined.

Lemma indexed_files_never_new_witness :
  "b.jpg" ∉ new_files album_mixed (sync album_mixed db3).2.
Proof.
  apply (indexed_files_never_new album3 empty_db db3 (sync album_mixed db3).2).
  - reflexivity.
  - apply rtc_once. by exists album_mixed.
  - apply list_elem_of_In. simpl. tauto.
Defined.

Lemma NoDup_album_mixed : NoDup album_mixed.*1.
Proof. apply (bool_decide_unpack _). vm_compute. exact I. Qed.

Lemma NoDup_album3 : NoDup album3.*1.
Proof. apply (bool_decide_unpack _). vm_compute. exact I. Qed.

Lemma well_formed_db_old : well_formed db_old.
Proof.
  intros row Hrow. apply list_elem_of_In in Hrow. simpl in Hrow.
  destruct Hrow as [<-|[]]. apply list_elem_of_In. simpl. tauto.
Qed.

Lemma well_formed_db_two_faces : well_formed db_two_faces.
Proof.
  intros row Hrow. apply list_elem_of_In in Hrow. simpl in Hrow.
  destruct Hrow as [<-|[<-|[<-|[]]]]; apply list_elem_of_In; simpl; tauto.
Qed.


Lemma main_keeps_album_files_witness :
  main {| find_face := None; delete_index := false |}
       {| album_root := Missing; elsewhere := [] |}
  = (Raise FileNotFoundError, {| album_root := Missing; elsewhere := [] |}, []) ∧
  (main {| find_face := None; delete_index := false |}
        {| album_root := Missing; elsewhere := [] |}).1.2
  = {| album_root := Missing; elsewhere := [] |}.
Proof.
  split; [reflexivity|].
  destruct (main_keeps_album_files
              {| find_face := None; delete_index := false |}
              {| album_root := Missing; elsewhere := [] |}) as (_ & _ & Hsame).
  apply Hsame. reflexivity.
Defined.

(** The run stops at [bad.jpg], yet the index is there with [a.jpg]. *)
Lemma main_leaves_index_witness :
  (main {| find_face := Some "query.png"; delete_index := false |}
        (world_of album_mixed None)).1.1 = Raise UnidentifiedImageError ∧
  ∃ db,
    index_of (main {| find_face := Some "query.png"; delete_index := false |}
                   (world_of album_mixed None)).1.2 = Some db ∧
    ∀ name, name ∈ files db → name ∈ Album.list_files album_mixed.
Proof.
  split; [reflexivity|].
  destruct (main_leaves_index
              {| find_face := Some "query.png"; delete_index := false |}
              (world_of album_mixed None)
              {| entries := album_mixed; index_file := None |} eq_refl eq_refl)
    as (db & Hindex & _ & _ & Hnames & _).
  exists db. split; [exact Hindex|].
  intros name Hname. destruct (Hnames name Hname) as [Hold|Hnew]; [|exact Hnew].
  by apply elem_of_nil in Hold.
Defined.

Lemma main_keeps_index_consistent_witness :
  index_consistent
    (main {| find_face := None; delete_index := false |}
          (world_of album_mixed (Some db_old))).1.2.
Proof.
  apply main_keeps_index_consistent.
  - intros album [= <-]. exact NoDup_album_mixed.
  - intros db [= <-]. split; [exact well_formed_db_old|].
    apply (bool_decide_unpack _). vm_compute. exact I.
Defined.


(** The stale [old.jpg] is gone after deleting and rebuilding. *)
Lemma delete_then_rebuild_witness :
  ∃ db,
    index_of (world_of album3 (Some db3)) = Some db ∧
    files db = Album.list_files album3 ∧
    link db = rows_of album3 (Album.list_files album3) ∧
    AlbumIndex.list_files db = list_to_set (Album.list_files album3).
Proof.
  apply (delete_then_rebuild (world_of album3 (Some db_old)) (world_of album3 None)
           (world_of album3 (Some db3))
           {| entries := album3; index_file := Some db_old |} []);
    reflexivity.
Defined.

Lemma find_face_returns_indexed_witness :
  (∀ name, name ∈ ["a.jpg"; "a.jpg"] → name ∈ AlbumIndex.list_files db_two_faces) ∧
  length ["a.jpg"; "a.jpg"] ≤ length (link db_two_faces).
Proof.
  apply (find_face_returns_indexed db_two_faces (Some (Regular [Byte.x89; Byte.x4f]))
           ["a.jpg"; "a.jpg"] []).
  - exact well_formed_db_two_faces.
  - reflexivity.
Defined.

Lemma find_face_skips_faceless_witness :
  settled "b.jpg" db3 ∧ "b.jpg" ∉ ["a.jpg"; "sub/c.jpg"].
Proof.
  assert (settled "b.jpg" db3) as Hsettled.
  { split; [|reflexivity]. apply elem_of_list_to_set, list_elem_of_In. simpl. tauto. }
  split; [exact Hsettled|].
  apply (find_face_skips_faceless db3 (Some (Regular [Byte.x89; Byte.x4f]))
           ["a.jpg"; "sub/c.jpg"] [] "b.jpg" Hsettled).
  reflexivity.
Defined.

Lemma insert_then_list_links_witness :
  ∃ db',
    AlbumIndex.insert album3 "a.jpg" empty_db = Ok db' ∧
    AlbumIndex.list_links db' = AlbumIndex.list_links empty_db ++ [("a.jpg", 65)] ∧
    AlbumIndex.list_files db' = AlbumIndex.list_files empty_db ∪ {[ "a.jpg" ]}.
Proof.
  apply (@insert_then_list_links libs album3 "a.jpg" empty_db ([Byte.x41] : bytes)).
  - reflexivity.
  - constructor; [reflexivity|constructor].
Defined.

Lemma Album_list_files_sublist_witness :
  NoDup (Album.list_files album3) ∧ "notes.txt" ∉ Album.list_files album3.
Proof.
  destruct (Album_list_files_sublist album3) as [_ Hnodup].
  destruct (Hnodup NoDup_album3) as [Hnd Hlisted].
  split; [exact Hnd|]. intros Hin.
  apply (Hlisted "notes.txt" (Regular [Byte.x68; Byte.x69])) in Hin
    as (content & [= <-] & Himage); [discriminate|].
  apply list_elem_of_In. simpl. tauto.
Defined.

Lemma codec_round_trip_iff_witness :
  convert_numpy_array (adapt_numpy_array (65 : nat)) = (65 : nat).
Proof.
  destruct (@codec_round_trip_iff libs (65 : nat)) as [_ Hiff].
  apply Hiff. reflexivity.
Defined.

(** The scenario with the codec that reads back what it wrote. *)
Lemma fresh_index_query_witness :
  @AlbumIndex.find_face SampleExact.libs db3 (Some (Regular [Byte.x89; Byte.x4f]))
  = (Ok (@album_matches SampleExact.libs album3 Byte.x4f), []) ∧
  @album_matches SampleExact.libs album3 Byte.x4f = ["a.jpg"; "sub/c.jpg"].
Proof.
  split; [|reflexivity].
  apply (@fresh_index_query SampleExact.libs album3 db3
           (Some (Regular [Byte.x89; Byte.x4f])) ([Byte.x4f] : bytes) Byte.x4f).
  - intros e. reflexivity.
  - reflexivity.
  - reflexivity.
  - reflexivity.
Defined.

(** [album_old] grows by the files of [album_mixed] without [bad.jpg]. *)
Lemma sync_in_two_steps_witness :
  sync (album_old ++ [("z.jpg", Regular [Byte.x89; Byte.x42])]) empty_db
  = (Ok (), {| files := ["old.jpg"; "z.jpg"];
               link := [("old.jpg", [Byte.x41]); ("z.jpg", [Byte.x42])] |}).
Proof.
  apply (sync_in_two_steps album_old [("z.jpg", Regular [Byte.x89; Byte.x42])]
           empty_db db_old).
  - apply (bool_decide_unpack _). vm_compute. exact I.
  - reflexivity.
  - reflexivity.
Defined.
End more_runs.
